(** * The classical Ising chain of the QML notebooks

    A shallow embedding of the code cells of the Ising-model notebook
    ([calculate_energy], the exhaustive enumeration loop, the hand-over to the
    simulated-annealing sampler) and of the binary-to-spin relabelling of the
    QBoost notebook, together with the properties stated about them.

    Numbers.  Spins are Python [int]s and are modelled in [Z].  Coupling
    strengths are Python numbers; they are modelled as exact rationals [Q]:
    every finite binary64 value is a (dyadic) rational and a product with a
    spin [+1]/[-1] is exact, so the only idealisation is that sums do not
    round.  Equality of energies is [Qeq] ([==]) unless both sides are the
    outcome of the same sequence of operations, where it is [=].  Integer
    entries beyond the binary64 range, whose conversion to a float raises
    [OverflowError], are outside the model ([in_binary64_range]). *)

From Stdlib Require Import List ZArith QArith Qabs Lia Lqa Bool Arith.
Import ListNotations.

(** ** Python values that may raise *)

Module Py.

(** The outcome of evaluating an expression: a value, or the one exception
    the modelled cells can raise, [IndexError] of a sequence subscript. *)
Inductive result (A : Type) : Type :=
| Ok (a : A)
| IndexError.

Arguments Ok {A} a.
Arguments IndexError {A}.

Definition bind {A B} (r : result A) (k : A -> result B) : result B :=
  match r with
  | Ok a => k a
  | IndexError => IndexError
  end.

(** [l[i]] for an index [i >= 0] of a list or tuple. *)
Definition getitem {A} (l : list A) (i : nat) : result A :=
  match nth_error l i with
  | Some a => Ok a
  | None => IndexError
  end.

(** [enumerate(l)], counting from [start]. *)
Fixpoint enumerate_from {A} (start : nat) (l : list A) : list (nat * A) :=
  match l with
  | [] => []
  | a :: l' => (start, a) :: enumerate_from (S start) l'
  end.

Definition enumerate {A} (l : list A) : list (nat * A) := enumerate_from 0 l.

(** [itertools.product] applied to the unpacked list [pools]: the rightmost
    pool advances fastest. *)
Fixpoint product {A} (pools : list (list A)) : list (list A) :=
  match pools with
  | [] => [[]]
  | pool :: pools' =>
      flat_map (fun x => map (cons x) (product pools')) pool
  end.

End Py.

Import Py.

Declare Scope py_scope.
Delimit Scope py_scope with py.
Notation "x <- e ;; k" := (bind e (fun x => k))
  (at level 61, e at next level, right associativity) : py_scope.
Local Open Scope py_scope.
Local Open Scope Q_scope.

(** ** The energy evaluator *)

(** A spin configuration [σ] and the couplings [J] of a chain: [J[i]] couples
    the neighbouring sites [i] and [i+1]. *)
Definition config := list Z.
Definition couplings := list Q.

(** One element of the generator, [J_ij*σ[i]*σ[i+1]]: the product is formed
    left to right, so [σ[i]] is read before [σ[i+1]]. *)
Definition coupling_term (σ : config) (i : nat) (J_ij : Q) : result Q :=
  s_i <- getitem σ i ;;
  let p := J_ij * inject_Z s_i in
  s_j <- getitem σ (i + 1) ;;
  Ok (p * inject_Z s_j).

(** [sum(...)] over the lazily evaluated generator: the running total starts
    at [0], every term is added on the right, and the first exception ends
    the evaluation. *)
Fixpoint sum_terms (σ : config) (acc : Q) (items : list (nat * Q)) : result Q :=
  match items with
  | [] => Ok acc
  | (i, J_ij) :: items' =>
      t <- coupling_term σ i J_ij ;;
      sum_terms σ (acc + t) items'
  end.

(** [def calculate_energy(J, σ):
       return sum(J_ij*σ[i]*σ[i+1] for i, J_ij in enumerate(J))] *)
Definition calculate_energy (J : couplings) (σ : config) : result Q :=
  sum_terms σ 0 (enumerate J).

(** ** The exhaustive enumeration *)

(** The set literal [{+1,-1}]; CPython iterates it as [1], then [-1]. *)
Definition spin_pool : list Z := [1%Z; (-1)%Z].

(** [itertools.product] over [N] copies of the pool,
    [[{+1,-1} for _ in range(N)]] unpacked. *)
Definition configurations (N : nat) : list config :=
  product (repeat spin_pool N).

(** The loop
    [for σ in itertools.product(...): print(calculate_energy(J, σ), σ)]
    with the number of sites [N] as a parameter (the cell runs it at [3]).
    The printed lines are collected in order; an exception raised by the
    evaluator leaves the loop and is the outcome of the cell. *)
Fixpoint print_rows (J : couplings) (σs : list config) : result (list (Q * config)) :=
  match σs with
  | [] => Ok []
  | σ :: σs' =>
      e <- calculate_energy J σ ;;
      rows <- print_rows J σs' ;;
      Ok ((e, σ) :: rows)
  end.

Definition exhaustive_search (N : nat) (J : couplings) : result (list (Q * config)) :=
  print_rows J (configurations N).

(** The cells' own data: [J = [1.0, -1.0]] and [σ = [+1, -1, +1]]. *)
Definition J_notebook : couplings := [1; -1].
Definition σ_notebook : config := [1%Z; (-1)%Z; 1%Z].

(** *** Reading the printed table

    The loop prints every line and selects nothing; the notebook reads the
    optimum off the table ("We see that -2 is the optimum, with two optimal
    configurations").  [least rows r] says that no line of the table has a
    smaller energy than [r]. *)
Definition least (rows : list (Q * config)) (r : Q * config) : bool :=
  forallb (fun r' => Qle_bool (fst r) (fst r')) rows.

Definition minimizers (rows : list (Q * config)) : list config :=
  map snd (filter (least rows) rows).

Definition minimum_energy (rows : list (Q * config)) : option Q :=
  option_map fst (find (least rows) rows).

(** ** Spin configurations *)

Definition is_spin (s : Z) : Prop := s = 1%Z \/ s = (-1)%Z.


(** The global spin flip [-σ]. *)
Definition flip (σ : config) : config := map Z.opp σ.



(** An integer entry that a product with a float coupling can take: its
    conversion to binary64 does not overflow. *)
Definition in_binary64_range (s : Z) : Prop := (Z.abs s <= 2 ^ 1023)%Z.

(** ** The Hamiltonian as the specification words it

    [H = - Σ_{(i,j) in couplings} J_ij σ_i σ_j - Σ_{i in fields} h_i σ_i + offset],
    over a sparse coupling set, a field set and a constant offset. *)
Definition coupling_set := list (nat * nat * Q).
Definition field_set := list (nat * Q).

Definition site (σ : config) (i : nat) : Q := inject_Z (nth i σ 0%Z).

Definition Qsum (l : list Q) : Q := fold_right Qplus 0 l.

Definition coupling_energy (σ : config) (c : nat * nat * Q) : Q :=
  let '(i, j, J_ij) := c in J_ij * site σ i * site σ j.

Definition field_energy (σ : config) (f : nat * Q) : Q :=
  let '(i, h_i) := f in h_i * site σ i.

Definition hamiltonian (Jset : coupling_set) (h : field_set) (offset : Q)
  (σ : config) : Q :=
  - Qsum (map (coupling_energy σ) Jset) - Qsum (map (field_energy σ) h) + offset.




(** ** Binary labels and spins *)

(** [labels] is a NumPy array of machine integers; arithmetic on its entries
    wraps around at 64 bits. *)
Definition wrap64 (z : Z) : Z := ((z + 2 ^ 63) mod 2 ^ 64 - 2 ^ 63)%Z.

(** One entry of [2 * labels[idx_train] - 1  # binary -> spin]. *)
Definition binary_to_spin (w : Z) : Z := wrap64 (wrap64 (2 * w) - 1).

(** [y_train = 2 * labels[idx_train] - 1], entry by entry. *)
Definition spins_of_labels (labels : list Z) : list Z := map binary_to_spin labels.

(** Modelled from the spec: the inverse relabelling [s |-> w = (s+1)/2] of
    section 6 is not part of the notebooks, which only convert binary labels
    to spins; it is taken as the specification words it. *)
Definition spin_to_binary (s : Z) : Z := ((s + 1) / 2)%Z.

Definition labels_of_spins (spins : list Z) : list Z := map spin_to_binary spins.

(** ** The heuristic search *)

(** A row of the sampler's response: a sampled configuration and its energy. *)
Record solution : Type := { sample : config; energy : Q }.

(** Modelled from the spec: the reduction behind [response.first] belongs to
    the sampler library and is not in the notebooks; section 4.2 words it as
    "the configuration of minimum observed energy".  The rows are scanned once
    and the best row so far is kept; an empty response has no first row. *)
Fixpoint lowest (best : solution) (rest : list solution) : solution :=
  match rest with
  | [] => best
  | r :: rest' =>
      lowest (if Qle_bool (energy best) (energy r) then best else r) rest'
  end.

(** Modelled from the spec: [response.first], the row of minimum observed
    energy of the response. *)
Definition first (response : list solution) : option solution :=
  match response with
  | [] => None
  | r :: rest => Some (lowest r rest)
  end.

(** [weights = list(response.first.sample.values())]: the outcome of the
    search is the sample of the first row, taken as it is. *)
Definition heuristic_search (response : list solution) : option config :=
  option_map sample (first response).

(** A response whose rows carry the evaluator's energy of their sample. *)
Definition consistent (J : couplings) (response : list solution) : Prop :=
  Forall (fun r => calculate_energy J (sample r) = Ok (energy r)) response.

(** ** The evaluator over the objects it is handed

    The arguments of [calculate_energy] are references to list objects of the
    caller.  To speak about what an evaluation does to them, the evaluator is
    run over a store holding the two objects: every step is a read. *)
Record store : Type := { J_obj : couplings; σ_obj : config }.

Definition St (A : Type) : Type := store -> result A * store.

Definition ret {A} (r : result A) : St A := fun s => (r, s).

Definition bindS {A B} (m : St A) (k : A -> St B) : St B :=
  fun s =>
    match m s with
    | (Ok a, s') => k a s'
    | (IndexError, s') => (IndexError, s')
    end.

Notation "x <~ e ;; k" := (bindS e (fun x => k))
  (at level 61, e at next level, right associativity) : py_scope.

(** [len(J)] and [J[i]] on the object bound to [J]: the list iterator behind
    [enumerate(J)] hands out the entry at its position for as long as the
    position is below the length. *)
Definition len_J : St nat := fun s => (Ok (length (J_obj s)), s).

Definition load_J (i : nat) : St Q := fun s => (getitem (J_obj s) i, s).

(** [σ[i]] on the object bound to [σ]. *)
Definition load_σ (i : nat) : St Z := fun s => (getitem (σ_obj s) i, s).

Definition coupling_term_st (i : nat) (J_ij : Q) : St Q :=
  s_i <~ load_σ i ;;
  let p := J_ij * inject_Z s_i in
  s_j <~ load_σ (i + 1) ;;
  ret (Ok (p * inject_Z s_j)).

Fixpoint sum_terms_st (acc : Q) (positions : list nat) : St Q :=
  match positions with
  | [] => ret (Ok acc)
  | i :: positions' =>
      J_ij <~ load_J i ;;
      t <~ coupling_term_st i J_ij ;;
      sum_terms_st (acc + t) positions'
  end.

Definition calculate_energy_st : St Q :=
  n <~ len_J ;;
  sum_terms_st 0 (seq 0 n).

(** * Further cells of the notebooks *)

(** ** Exceptions and outcomes *)

(** The cells below can raise more than one exception. *)
Inductive exc : Type :=
| ExcIndexError
| ExcKeyError
| ExcValueError
| ExcZeroDivisionError.

Inductive outcome (A : Type) : Type :=
| Returns (a : A)
| Raises (e : exc).

Arguments Returns {A} a.
Arguments Raises {A} e.

Definition and_then {A B} (o : outcome A) (k : A -> outcome B) : outcome B :=
  match o with
  | Returns a => k a
  | Raises e => Raises e
  end.

Notation "x <-- e ;; k" := (and_then e (fun x => k))
  (at level 61, e at next level, right associativity) : py_scope.

(** A loop body run over the items of a list, left to right, collecting the
    values; the first exception ends it. *)
Fixpoint for_each {A B} (f : A -> outcome B) (l : list A) : outcome (list B) :=
  match l with
  | [] => Returns []
  | a :: l' =>
      b <-- f a ;;
      bs <-- for_each f l' ;;
      Returns (b :: bs)
  end.

(** [range(n)] and [range(a, b)]. *)
Definition range (n : Z) : list Z := map Z.of_nat (seq 0 (Z.to_nat n)).

Definition range_from (a b : Z) : list Z :=
  map (fun k => (a + Z.of_nat k)%Z) (seq 0 (Z.to_nat (b - a))).

(** [a >> n] on Python integers: a negative shift count is a [ValueError]. *)
Definition rshift (a n : Z) : outcome Z :=
  if (n <? 0)%Z then Raises ExcValueError else Returns (Z.shiftr a n).

(** [a[i] = v] on an array. *)
Definition store_item {A} (a : list A) (i : nat) (v : A) : outcome (list A) :=
  if (i <? length a)%nat
  then Returns (firstn i a ++ v :: skipn (S i) a)
  else Raises ExcIndexError.

(** ** Bits of a basis-state index *)

(** [def nth_bit(idx, n): return (idx >> (num_nodes-n-1)) & 1], with the
    global [num_nodes = len(qubits)] as a parameter. *)
Definition nth_bit (num_nodes : nat) (idx n : Z) : outcome Z :=
  shifted <-- rshift idx (Z.of_nat num_nodes - n - 1) ;;
  Returns (Z.land shifted 1).

(** The read-out of the most likely basis state [k = np.argmax(wf)]:
    [weights = np.zeros(num_nodes)
     for i in range(num_nodes):
         weights[i] = k % 2
         k >>= 1] *)
Fixpoint extract_loop (positions : list nat) (weights : list Z) (k : Z)
  : outcome (list Z * Z) :=
  match positions with
  | [] => Returns (weights, k)
  | i :: positions' =>
      weights' <-- store_item weights i (k mod 2)%Z ;;
      k' <-- rshift k 1 ;;
      extract_loop positions' weights' k'
  end.

Definition extract_weights (num_nodes : nat) (k : Z) : outcome (list Z) :=
  r <-- extract_loop (seq 0 num_nodes) (repeat 0%Z num_nodes) k ;;
  Returns (fst r).

(** The binary digits of [k], least significant first, and the numbers a
    list of digits stands for in either order. *)
Fixpoint bits_le (n : nat) (k : Z) : list Z :=
  match n with
  | O => []
  | S n' => (k mod 2)%Z :: bits_le n' (k / 2)%Z
  end.

Definition from_bits_le (bits : list Z) : Z :=
  fold_right (fun b acc => (b + 2 * acc)%Z) 0%Z bits.

Definition from_bits_be (bits : list Z) : Z :=
  fold_left (fun acc b => (2 * acc + b)%Z) bits 0%Z.

Definition is_bit (b : Z) : Prop := b = 0%Z \/ b = 1%Z.


(** ** The cost of a wavefunction *)

(** [h[i]] and [J[i, j]] on the dictionaries returned by the conversion of
    the QUBO: a missing key is a [KeyError]. *)
Fixpoint get_h (h : field_set) (i : nat) : outcome Q :=
  match h with
  | [] => Raises ExcKeyError
  | (k, v) :: h' => if (k =? i)%nat then Returns v else get_h h' i
  end.

Fixpoint get_J (J : coupling_set) (i j : nat) : outcome Q :=
  match J with
  | [] => Raises ExcKeyError
  | (k, l, v) :: J' =>
      if ((k =? i) && (l =? j))%nat then Returns v else get_J J' i j
  end.

(** The inner loop of [energy_from_wavefunction],
    [for j in range(i+1, num_nodes):
         if nth_bit(idx, i) == nth_bit(idx, j):
             ZZ_filter[idx] += J[i, j]],
    with the entry [ZZ_filter[idx]] as the accumulator. *)
Fixpoint pair_loop (num_nodes : nat) (J : coupling_set) (idx : Z) (i : nat)
  (js : list nat) (acc : Q) : outcome Q :=
  match js with
  | [] => Returns acc
  | j :: js' =>
      b_i <-- nth_bit num_nodes idx (Z.of_nat i) ;;
      b_j <-- nth_bit num_nodes idx (Z.of_nat j) ;;
      if (b_i =? b_j)%Z
      then J_ij <-- get_J J i j ;; pair_loop num_nodes J idx i js' (acc + J_ij)
      else pair_loop num_nodes J idx i js' acc
  end.

(** The loop over the sites,
    [for i in range(num_nodes):
         if nth_bit(idx, i):
             ZZ_filter[idx] += h[i]
         for j in range(i+1, num_nodes): ...]. *)
Fixpoint site_loop (num_nodes : nat) (h : field_set) (J : coupling_set)
  (idx : Z) (sites : list nat) (acc : Q) : outcome Q :=
  match sites with
  | [] => Returns acc
  | i :: sites' =>
      b_i <-- nth_bit num_nodes idx (Z.of_nat i) ;;
      acc1 <-- (if (b_i =? 0)%Z then Returns acc
                else h_i <-- get_h h i ;; Returns (acc + h_i)) ;;
      acc2 <-- pair_loop num_nodes J idx i (seq (S i) (num_nodes - S i)) acc1 ;;
      site_loop num_nodes h J idx sites' acc2
  end.

(** One entry of [ZZ_filter], which starts from [np.zeros_like(wf)]. *)
Definition ZZ_filter_entry (num_nodes : nat) (h : field_set) (J : coupling_set)
  (idx : Z) : outcome Q :=
  site_loop num_nodes h J idx (seq 0 num_nodes) 0.

(** [for idx in range(len(wf)): ...]. *)
Definition ZZ_filter (num_nodes : nat) (h : field_set) (J : coupling_set)
  (len_wf : nat) : outcome (list Q) :=
  for_each (ZZ_filter_entry num_nodes h J) (range (Z.of_nat len_wf)).

(** An amplitude of the wavefunction, real and imaginary part, and
    [np.abs(z)**2] taken exactly. *)
Definition amplitude : Type := (Q * Q)%type.

Definition abs2 (z : amplitude) : Q := fst z * fst z + snd z * snd z.

(** [def energy_from_wavefunction(wf): ...
       return -np.sum(np.abs(wf)**2 * ZZ_filter)], with the globals
    [num_nodes], [h] and [J] as parameters. *)
Definition energy_from_wavefunction (num_nodes : nat) (h : field_set)
  (J : coupling_set) (wf : list amplitude) : outcome Q :=
  filter <-- ZZ_filter num_nodes h J (length wf) ;;
  Returns (- Qsum (map (fun zf => abs2 (fst zf) * snd zf) (combine wf filter))).

(** The value under a key, [0] where the key is missing. *)
Definition value_of (o : outcome Q) : Q :=
  match o with
  | Returns v => v
  | Raises _ => 0
  end.

Definition has_value (o : outcome Q) : bool :=
  match o with
  | Returns _ => true
  | Raises _ => false
  end.

(** [h] holds every site and [J] every pair [i < j] of [num_nodes] sites. *)
Definition all_keys (num_nodes : nat) (h : field_set) (J : coupling_set) : bool :=
  forallb (fun i =>
             has_value (get_h h i)
             && forallb (fun j => has_value (get_J J i j))
                  (seq (S i) (num_nodes - S i)))
    (seq 0 num_nodes).

(** The binary digit [nth_bit] reads at site [i], and the spin [2b - 1] it
    stands for. *)
Definition bit_at (num_nodes : nat) (idx : Z) (i : nat) : Z :=
  ((idx / 2 ^ (Z.of_nat num_nodes - Z.of_nat i - 1)) mod 2)%Z.

Definition spin_at (num_nodes : nat) (idx : Z) (i : nat) : Q :=
  inject_Z (2 * bit_at num_nodes idx i - 1).

(** The Ising objective [Σ_i h_i s_i + Σ_{i<j} J_ij s_i s_j] of the
    dictionaries at the spins [s], and the total of all their biases. *)
Definition ising_objective (num_nodes : nat) (h : field_set) (J : coupling_set)
  (s : nat -> Q) : Q :=
  Qsum (map (fun i =>
               value_of (get_h h i) * s i
               + Qsum (map (fun j => value_of (get_J J i j) * s i * s j)
                         (seq (S i) (num_nodes - S i))))
          (seq 0 num_nodes)).

Definition bias_total (num_nodes : nat) (h : field_set) (J : coupling_set) : Q :=
  Qsum (map (fun i =>
               value_of (get_h h i)
               + Qsum (map (fun j => value_of (get_J J i j))
                         (seq (S i) (num_nodes - S i))))
          (seq 0 num_nodes)).

(** The wavefunction of the basis state [k] among [n] amplitudes. *)
Definition basis_state (n k : nat) : list amplitude :=
  map (fun idx => if (idx =? k)%nat then (1, 0) else (0, 0)) (seq 0 n).


(** What the loops add to an entry of the filter: [J[i, j]] for every pair of
    equal bits and [h[i]] for every set bit. *)
Definition pair_weight (num_nodes : nat) (J : coupling_set) (idx : Z)
  (i j : nat) : Q :=
  if (bit_at num_nodes idx i =? bit_at num_nodes idx j)%Z
  then value_of (get_J J i j) else 0.

Definition site_weight (num_nodes : nat) (h : field_set) (J : coupling_set)
  (idx : Z) (i : nat) : Q :=
  (if (bit_at num_nodes idx i =? 0)%Z then 0 else value_of (get_h h i))
  + Qsum (map (pair_weight num_nodes J idx i) (seq (S i) (num_nodes - S i))).

Definition filter_value (num_nodes : nat) (h : field_set) (J : coupling_set)
  (idx : Z) : Q :=
  Qsum (map (site_weight num_nodes h J idx) (seq 0 num_nodes)).


(** ** The vote of the ensemble *)

(** [l[i]] on a list or an array, with every exception of the cell at hand. *)
Definition subscript {A} (l : list A) (i : nat) : outcome A :=
  match nth_error l i with
  | Some a => Returns a
  | None => Raises ExcIndexError
  end.

(** [np.sign]. *)
Definition sign (x : Q) : Q := inject_Z (Z.sgn (Qnum x)).

(** [y += y0] on one-dimensional arrays: [y0] has the length of [y] or is
    broadcast from length one; any other shape is a [ValueError]. *)
Definition add_in_place (y y0 : list Q) : outcome (list Q) :=
  if (length y0 =? length y)%nat
  then Returns (map (fun p => fst p + snd p) (combine y y0))
  else if (length y0 =? 1)%nat
       then Returns (map (fun v => v + hd 0 y0) y)
       else Raises ExcValueError.

(** The loop of [predict] over [enumerate(models)]; a model [h] is what
    [h.predict] computes from the data, one prediction per data point:
    [y0 = weights[i] * h.predict(X)
     y += y0
     T += np.sum(y0)]. *)
Fixpoint predict_loop {X} (items : list (nat * (list X -> list Q)))
  (weights : list Q) (data : list X) (y : list Q) (T : Q)
  : outcome (list Q * Q) :=
  match items with
  | [] => Returns (y, T)
  | (i, h) :: items' =>
      w <-- subscript weights i ;;
      let y0 := map (Qmult w) (h data) in
      y' <-- add_in_place y y0 ;;
      predict_loop items' weights data y' (T + Qsum y0)
  end.

(** [def predict(models, weights, X):
       n_data = len(X); T = 0; y = np.zeros(n_data)
       for i, h in enumerate(models): ...
       y = np.sign(y - T / (n_data*len(models)))
       return y].
    With no model, [T] is still the integer [0] and the division is
    [0 / 0] on integers, a [ZeroDivisionError]; with models and no data the
    division is NumPy's and raises nothing, and [y] is empty. *)
Definition predict {X} (models : list (list X -> list Q)) (weights : list Q)
  (data : list X) : outcome (list Q) :=
  let n_data := length data in
  r <-- predict_loop (enumerate models) weights data (repeat 0 n_data) 0 ;;
  if (length models =? 0)%nat
  then Raises ExcZeroDivisionError
  else
    let threshold := snd r / inject_Z (Z.of_nat (n_data * length models)) in
    Returns (map (fun v => sign (v - threshold)) (fst r)).

(** Every model answers with one prediction per data point. *)
Definition well_shaped {X} (models : list (list X -> list Q)) (data : list X) : Prop :=
  Forall (fun h => length (h data) = length data) models.

(** A class label [+1] or [-1]. *)
Definition is_label (p : Q) : Prop := p == 1 \/ p == -1.

(** The weights that select the model at position [k] among [n]. *)
Definition one_hot (n k : nat) : list Q :=
  map (fun i => if (i =? k)%nat then 1 else 0) (seq 0 n).

(** The weighted sum of the predictions for the data point [j], and the
    weighted total of all predictions, over a stretch of the enumeration. *)
Definition vote {X} (items : list (nat * (list X -> list Q))) (weights : list Q)
  (data : list X) (j : nat) : Q :=
  Qsum (map (fun it => nth (fst it) weights 0 * nth j (snd it data) 0) items).

Definition total {X} (items : list (nat * (list X -> list Q))) (weights : list Q)
  (data : list X) : Q :=
  Qsum (map (fun it => nth (fst it) weights 0 * Qsum (snd it data)) items).


(** Two models that answer [(+1, -1)] and [(+1, +1)] on two data points. *)
Definition example_models : list (list unit -> list Q) :=
  [fun _ => [1; -1]; fun _ => [1; 1]].

Definition example_data : list unit := [tt; tt].


(** ** The energy expectation of a quantum state *)

(** Complex entries, real and imaginary part (the type [amplitude]). *)
Definition Cadd (a b : amplitude) : amplitude :=
  (fst a + fst b, snd a + snd b).

Definition Cmul (a b : amplitude) : amplitude :=
  (fst a * fst b - snd a * snd b, fst a * snd b + snd a * fst b).

Definition Cconj (a : amplitude) : amplitude := (fst a, - snd a).

Definition Ceq (a b : amplitude) : Prop := fst a == fst b /\ snd a == snd b.

Definition Csum (l : list amplitude) : amplitude := fold_right Cadd (0, 0) l.

(** A two-dimensional NumPy array: its shape and its entries. *)
Record ndarray : Type :=
  { rows : nat; cols : nat; entry : nat -> nat -> amplitude }.

(** [a.T], [a.conj()] and [np.kron(a, b)]. *)
Definition transpose (a : ndarray) : ndarray :=
  {| rows := cols a; cols := rows a; entry := fun i j => entry a j i |}.

Definition conj (a : ndarray) : ndarray :=
  {| rows := rows a; cols := cols a; entry := fun i j => Cconj (entry a i j) |}.

Definition kron (a b : ndarray) : ndarray :=
  {| rows := rows a * rows b;
     cols := cols a * cols b;
     entry := fun i j =>
                Cmul (entry a (i / rows b) (j / cols b))
                     (entry b (i mod rows b) (j mod cols b)) |}.

(** [a @ b]: the inner dimensions must agree, else a [ValueError]. *)
Definition matmul (a b : ndarray) : outcome ndarray :=
  if (cols a =? rows b)%nat
  then Returns {| rows := rows a;
                  cols := cols b;
                  entry := fun i j =>
                             Csum (map (fun k => Cmul (entry a i k) (entry b k j))
                                     (seq 0 (cols a))) |}
  else Raises ExcValueError.

(** [a.item()]: the one entry of an array of size one, else a [ValueError]. *)
Definition item (a : ndarray) : outcome amplitude :=
  if ((rows a =? 1) && (cols a =? 1))%nat
  then Returns (entry a 0%nat 0%nat)
  else Raises ExcValueError.

(** [(state.T.conj() @ hamiltonian @ state).item()]: the products are formed
    left to right. *)
Definition expectation_scalar (state hamiltonian : ndarray) : outcome amplitude :=
  bra_h <-- matmul (conj (transpose state)) hamiltonian ;;
  product <-- matmul bra_h state ;;
  item product.

(** [def calculate_energy_expectation(state, hamiltonian):
       return float((state.T.conj() @ hamiltonian @ state).item().real)] *)
Definition calculate_energy_expectation (state hamiltonian : ndarray) : outcome Q :=
  z <-- expectation_scalar state hamiltonian ;;
  Returns (fst z).

(** The column vector of the basis state [k] among [n]. *)
Definition basis_column (n k : nat) : ndarray :=
  {| rows := n; cols := 1;
     entry := fun i _ => if (i =? k)%nat then (1, 0) else (0, 0) |}.

(** The cell's arrays: [PauliZ], [np.eye(2)], [IZ], [ZI], [ZZ],
    [H = -ZZ + -0.5*(ZI+IZ)] and [ψ = np.kron([[1], [0]], [[1], [0]])]. *)
Definition array_of (n m : nat) (l : list (list Q)) : ndarray :=
  {| rows := n; cols := m;
     entry := fun i j => (nth j (nth i l []) 0, 0) |}.

Definition PauliZ : ndarray := array_of 2 2 [[1; 0]; [0; -1]].
Definition eye2 : ndarray := array_of 2 2 [[1; 0]; [0; 1]].
Definition IZ : ndarray := kron eye2 PauliZ.
Definition ZI : ndarray := kron PauliZ eye2.
Definition ZZ : ndarray := kron PauliZ PauliZ.

Definition scale_array (c : Q) (a : ndarray) : ndarray :=
  {| rows := rows a; cols := cols a;
     entry := fun i j => Cmul (c, 0) (entry a i j) |}.

Definition add_array (a b : ndarray) : ndarray :=
  {| rows := rows a; cols := cols a;
     entry := fun i j => Cadd (entry a i j) (entry b i j) |}.

Definition H_notebook : ndarray :=
  add_array (scale_array (-1) ZZ) (scale_array (- (1 # 2)) (add_array ZI IZ)).

Definition ψ_notebook : ndarray :=
  kron (array_of 2 1 [[1]; [0]]) (array_of 2 1 [[1]; [0]]).


(** The term [conj(ψ_i)·H_ij·ψ_j] of the product [ψ† H ψ] of a column [ψ]. *)
Definition sandwich (state hamiltonian : ndarray) (i j : nat) : amplitude :=
  Cmul (Cmul (Cconj (entry state i 0%nat)) (entry hamiltonian i j))
       (entry state j 0%nat).

(** The shapes [calculate_energy_expectation] accepts: a column [state] of
    some length [n] and an [n × n] array [hamiltonian]. *)
Definition shapes_fit (state hamiltonian : ndarray) : Prop :=
  rows hamiltonian = rows state /\ cols hamiltonian = rows state /\ cols state = 1%nat.


(** ** The split into training and test indices *)

(** [idx_train = idx[:2*len(idx)//3]] and [idx_test = idx[2*len(idx)//3:]]. *)
Definition split_point {A} (idx : list A) : nat := (2 * length idx / 3)%nat.

Definition idx_train {A} (idx : list A) : list A := firstn (split_point idx) idx.

Definition idx_test {A} (idx : list A) : list A := skipn (split_point idx) idx.

(** ** The longest chain of an embedding *)

(** [max_chain_length = 0
     for _, chain in embedded_graph.items():
         if len(chain) > max_chain_length:
             max_chain_length = len(chain)] *)
Definition longer {K V} (max_chain_length : nat) (item : K * list V) : nat :=
  if (max_chain_length <? length (snd item))%nat
  then length (snd item)
  else max_chain_length.

Definition max_chain_length {K V} (embedded_graph : list (K * list V)) : nat :=
  fold_left longer embedded_graph 0%nat.


(** ** A configuration that satisfies every coupling of a chain *)

(** Starting from the spin [s], each next spin is chosen against the sign of
    the coupling to it: opposite to its neighbour for [J[i] >= 0], equal to
    it for [J[i] < 0]. *)
Fixpoint align (s : Z) (J : couplings) : config :=
  match J with
  | [] => [s]
  | J_ij :: J' => s :: align (if Qle_bool 0 J_ij then (- s)%Z else s) J'
  end.

(** * Properties *)

(** ** The notebook's run *)

Example calculate_energy_notebook :
  calculate_energy J_notebook σ_notebook = Ok 0.
Proof. reflexivity. Qed.

Example exhaustive_search_notebook :
  exhaustive_search 3 J_notebook
  = Ok [ (0, [1; 1; 1]%Z);     (2, [1; 1; -1]%Z);
         (0, [1; -1; 1]%Z);    (-2, [1; -1; -1]%Z);
         (-2, [-1; 1; 1]%Z);   (0, [-1; 1; -1]%Z);
         (2, [-1; -1; 1]%Z);   (0, [-1; -1; -1]%Z) ].
Proof. reflexivity. Qed.

(** ** Subscripts and enumeration *)



Lemma enumerate_from_length {A} (l : list A) :
  forall k, length (enumerate_from k l) = length l.
Proof.
  induction l as [|a l IH]; intros k; simpl; [reflexivity | now rewrite IH].
Qed.

Lemma enumerate_from_index {A} (l : list A) :
  forall k i a, In (i, a) (enumerate_from k l) ->
                (k <= i < k + length l)%nat /\ nth_error l (i - k) = Some a.
Proof.
  induction l as [|b l IH]; intros k i a Hin; simpl in *; [contradiction|].
  destruct Hin as [Heq | Hin].
  - inversion Heq; subst. split; [lia|]. now rewrite Nat.sub_diag.
  - apply IH in Hin. destruct Hin as [Hr Hn]. split; [lia|].
    replace (i - k)%nat with (S (i - S k)) by lia. exact Hn.
Qed.


(** ** What the evaluator computes *)














(** ** Global spin flip *)

Lemma getitem_flip σ i :
  getitem (flip σ) i = (s <- getitem σ i ;; Ok (- s)%Z).
Proof.
  unfold getitem, flip. rewrite nth_error_map.
  destruct (nth_error σ i); reflexivity.
Qed.

Lemma Qmult_spin_flip (J_ij : Q) (s t : Z) :
  J_ij * inject_Z (- s) * inject_Z (- t) = J_ij * inject_Z s * inject_Z t.
Proof.
  unfold Qmult, inject_Z; simpl. f_equal. ring.
Qed.

Lemma coupling_term_flip σ i J_ij :
  coupling_term (flip σ) i J_ij = coupling_term σ i J_ij.
Proof.
  unfold coupling_term. rewrite !getitem_flip.
  destruct (getitem σ i) as [s|]; [|reflexivity]. cbn [bind].
  destruct (getitem σ (i + 1)) as [t|]; [|reflexivity]. cbn [bind].
  f_equal. apply Qmult_spin_flip.
Qed.

Lemma sum_terms_flip σ items :
  forall acc, sum_terms (flip σ) acc items = sum_terms σ acc items.
Proof.
  induction items as [|[i J_ij] items IH]; intros acc; [reflexivity|].
  cbn [sum_terms]. rewrite coupling_term_flip.
  destruct (coupling_term σ i J_ij) as [t|]; [|reflexivity].
  cbn [bind]. apply IH.
Qed.

(** C5: with no fields, the energy is symmetric under the global spin flip:
    for every coupling list [J] and every configuration [σ], the evaluator
    returns on [-σ] exactly what it returns on [σ] (the same value, or the
    same exception when [σ] is too short). *)
Theorem calculate_energy_flip J σ :
  calculate_energy J (flip σ) = calculate_energy J σ.
Proof.
  unfold calculate_energy. apply sum_terms_flip.
Qed.

(** ** Only a prefix of the configuration is read *)

Lemma getitem_firstn {A} (l : list A) n i :
  (i < n)%nat -> getitem (firstn n l) i = getitem l i.
Proof.
  intros Hi. unfold getitem. rewrite nth_error_firstn.
  apply Nat.ltb_lt in Hi. rewrite Hi. reflexivity.
Qed.

Lemma sum_terms_firstn σ n items :
  forall acc, Forall (fun it => (fst it + 1 < n)%nat) items ->
              sum_terms (firstn n σ) acc items = sum_terms σ acc items.
Proof.
  induction items as [|[i J_ij] items IH]; intros acc HF; [reflexivity|].
  inversion HF as [|? ? Hi HF']; subst. simpl in Hi.
  cbn [sum_terms]. unfold coupling_term.
  rewrite !getitem_firstn by lia.
  destruct (getitem σ i) as [s|]; [|reflexivity]. cbn [bind].
  destruct (getitem σ (i + 1)) as [t|]; [|reflexivity]. cbn [bind].
  apply IH. exact HF'.
Qed.

Lemma calculate_energy_firstn J σ :
  calculate_energy J (firstn (S (length J)) σ) = calculate_energy J σ.
Proof.
  unfold calculate_energy. apply sum_terms_firstn.
  apply Forall_forall. intros [i a] Hin.
  apply enumerate_from_index in Hin. simpl. lia.
Qed.

(** C10: [calculate_energy] reads only the first [len(J)+1] entries of the
    configuration: two configurations that agree on the indices [0 .. len(J)]
    (either may be longer) get the same result, and for [J = []] the result
    is [0] whatever the configuration. *)
Theorem calculate_energy_prefix J σ σ' :
  firstn (S (length J)) σ = firstn (S (length J)) σ' ->
  calculate_energy J σ = calculate_energy J σ' /\
  calculate_energy [] σ = Ok 0.
Proof.
  intros Hagree. split; [|reflexivity].
  rewrite <- (calculate_energy_firstn J σ), <- (calculate_energy_firstn J σ').
  now rewrite Hagree.
Qed.

Lemma calculate_energy_prefix_witness :
  firstn (S (length J_notebook)) σ_notebook
    = firstn (S (length J_notebook)) [1; -1; 1; -1; -1]%Z /\
  calculate_energy J_notebook σ_notebook
    = calculate_energy J_notebook [1; -1; 1; -1; -1]%Z /\
  calculate_energy [] σ_notebook = Ok 0.
Proof.
  split.
  - reflexivity.
  - apply calculate_energy_prefix. reflexivity.
Defined.

(** ** The enumeration of configurations *)







(** ** The printed table *)





(** ** Errors of the evaluator *)


Lemma spin_in_binary64_range s : is_spin s -> in_binary64_range s.
Proof. intros [-> | ->]; unfold in_binary64_range; vm_compute; discriminate. Qed.




(** ** The printed table is complete *)






(** ** The notebook's instance on three sites *)

(** C2, as stated, fails: on the notebook's instance the search puts out the
    alternating configurations [(+1,-1,+1)] and [(-1,+1,-1)] with energy [0];
    the two lines of least energy hold other configurations. *)
Lemma alternating_not_ground_states :
  exists rows,
    exhaustive_search 3 J_notebook = Ok rows /\
    In (0, [1; -1; 1]%Z) rows /\ In (0, [-1; 1; -1]%Z) rows /\
    minimizers rows = [[1; -1; -1]; [-1; 1; 1]]%Z.
Proof.
  eexists. split; [reflexivity|].
  split; [simpl; auto 10|]. split; [simpl; auto 10|]. reflexivity.
Qed.

(** C2 (amended): on the three-site instance with the couplings [1.0] between
    sites 0 and 1 and [-1.0] between sites 1 and 2 the exhaustive search
    yields the minimum energy [-2], reached by exactly two configurations,
    each the global flip of the other; [(+1,-1,+1)] and [(-1,+1,-1)] have
    energy [0] and are not among them. *)
Theorem notebook_ground_states :
  exists rows σ0,
    exhaustive_search 3 J_notebook = Ok rows /\
    minimum_energy rows = Some (-2) /\
    minimizers rows = [σ0; flip σ0] /\
    ~ In [1; -1; 1]%Z (minimizers rows) /\
    ~ In [-1; 1; -1]%Z (minimizers rows) /\
    In (0, [1; -1; 1]%Z) rows /\
    In (0, [-1; 1; -1]%Z) rows.
Proof.
  eexists. exists [1; -1; -1]%Z. split; [reflexivity|].
  split; [reflexivity|]. split; [reflexivity|].
  split; [intros [H | [H | []]]; discriminate H|].
  split; [intros [H | [H | []]]; discriminate H|].
  split; simpl; auto 10.
Qed.

(** ** One coupling on two sites *)

Lemma Qle_bool_true a b : a <= b -> Qle_bool a b = true.
Proof. apply Qle_bool_iff. Qed.

Lemma Qle_bool_false a b : b < a -> Qle_bool a b = false.
Proof.
  intros Hlt. destruct (Qle_bool a b) eqn:E; [|reflexivity].
  apply Qle_bool_iff in E. lra.
Qed.

Ltac spin_constants :=
  change (inject_Z 1) with 1 in *; change (inject_Z (-1)) with (-1) in *.

Ltac compare_energies :=
  repeat match goal with
    | |- context [Qle_bool ?a ?b] =>
        first [ rewrite (Qle_bool_true a b) by (spin_constants; lra)
              | rewrite (Qle_bool_false a b) by (spin_constants; lra) ]
    end.

Lemma exhaustive_search_two_sites (J : Q) :
  exhaustive_search 2 [J]
  = Ok [ (0 + J * inject_Z 1 * inject_Z 1, [1; 1]%Z);
         (0 + J * inject_Z 1 * inject_Z (-1), [1; -1]%Z);
         (0 + J * inject_Z (-1) * inject_Z 1, [-1; 1]%Z);
         (0 + J * inject_Z (-1) * inject_Z (-1), [-1; -1]%Z) ].
Proof. reflexivity. Qed.

(** C7, on the code: for every [J] the search over two sites with the single
    coupling [J] has the minimum energy [-|J|]; it is reached exactly by the
    configurations with [σ_0·σ_1 = -1] when [J > 0] and by those with
    [σ_0·σ_1 = +1] when [J < 0], that is, where the product has the sign
    opposite to that of [J]; at [J = 0] all four configurations tie. *)
Theorem two_site_search_minimizers (J : Q) :
  exists rows,
    exhaustive_search 2 [J] = Ok rows /\
    (exists e, minimum_energy rows = Some e /\ e == - Qabs J) /\
    (0 < J -> minimizers rows = [[1; -1]; [-1; 1]]%Z) /\
    (J < 0 -> minimizers rows = [[1; 1]; [-1; -1]]%Z) /\
    (J == 0 -> minimizers rows = [[1; 1]; [1; -1]; [-1; 1]; [-1; -1]]%Z).
Proof.
  eexists. split; [apply exhaustive_search_two_sites|].
  unfold minimum_energy, minimizers, least.
  cbn [forallb find filter map fst snd option_map].
  split; [|split; [|split]].
  - destruct (Q_dec J 0) as [[Hneg | Hpos] | Hzero].
    + compare_energies. cbn [andb option_map fst]. eexists. split; [reflexivity|].
      rewrite (Qabs_neg J) by lra. spin_constants. lra.
    + compare_energies. cbn [andb option_map fst]. eexists. split; [reflexivity|].
      rewrite (Qabs_pos J) by lra. spin_constants. lra.
    + compare_energies. cbn [andb option_map fst]. eexists. split; [reflexivity|].
      rewrite Hzero. spin_constants. vm_compute. reflexivity.
  - intros Hpos. compare_energies. reflexivity.
  - intros Hneg. compare_energies. reflexivity.
  - intros Hzero. compare_energies. reflexivity.
Qed.

(** The failing input of C7, evaluated: with [J = 1] the two lines of least
    energy hold the configurations of product [-1]. *)
Example two_site_search_J1 :
  exhaustive_search 2 [1]
  = Ok [ (1, [1; 1]%Z); (-1, [1; -1]%Z); (-1, [-1; 1]%Z); (1, [-1; -1]%Z) ].
Proof. reflexivity. Qed.

(** ** Binary labels and spins *)

Lemma spin_to_binary_bit s :
  is_spin s -> spin_to_binary s = 0%Z \/ spin_to_binary s = 1%Z.
Proof. intros [-> | ->]; [now right | now left]. Qed.

Lemma binary_to_spin_inverse s :
  is_spin s -> binary_to_spin (spin_to_binary s) = s.
Proof. intros [-> | ->]; reflexivity. Qed.

Lemma spin_to_binary_inverse w :
  w = 0%Z \/ w = 1%Z -> spin_to_binary (binary_to_spin w) = w.
Proof. intros [-> | ->]; reflexivity. Qed.

(** C4: a spin configuration converted to binary by [w = (s+1)/2] and back
    by [s' = 2w - 1] is unchanged, entry by entry, and the intermediate
    entries are the bits [0] and [1]. *)
Theorem spin_binary_round_trip (spins : list Z) :
  Forall is_spin spins ->
  Forall (fun w => w = 0%Z \/ w = 1%Z) (labels_of_spins spins) /\
  spins_of_labels (labels_of_spins spins) = spins.
Proof.
  induction 1 as [|s spins Hs HF [IHbits IHeq]].
  - split; [constructor | reflexivity].
  - split.
    + constructor; [now apply spin_to_binary_bit | exact IHbits].
    + unfold spins_of_labels, labels_of_spins in *. cbn [map].
      now rewrite (binary_to_spin_inverse s Hs), IHeq.
Qed.

Lemma notebook_spins : Forall is_spin σ_notebook.
Proof.
  repeat (apply Forall_cons; [unfold is_spin; (now left) || (now right)|]).
  apply Forall_nil.
Defined.

Lemma spin_binary_round_trip_witness :
  Forall is_spin σ_notebook /\
  Forall (fun w => w = 0%Z \/ w = 1%Z) (labels_of_spins σ_notebook) /\
  spins_of_labels (labels_of_spins σ_notebook) = σ_notebook.
Proof.
  split.
  - exact notebook_spins.
  - apply spin_binary_round_trip. exact notebook_spins.
Defined.

(** ** The heuristic search *)

Lemma lowest_In rest :
  forall best, lowest best rest = best \/ In (lowest best rest) rest.
Proof.
  induction rest as [|r rest IH]; intros best; [now left|].
  cbn [lowest].
  destruct (IH (if Qle_bool (energy best) (energy r) then best else r))
    as [Heq | Hin].
  - rewrite Heq. destruct (Qle_bool (energy best) (energy r));
      [now left | right; now left].
  - right. now right.
Qed.

Lemma lowest_le rest :
  forall best,
    energy (lowest best rest) <= energy best /\
    forall r, In r rest -> energy (lowest best rest) <= energy r.
Proof.
  induction rest as [|r rest IH]; intros best.
  - split; [apply Qle_refl | intros r []].
  - cbn [lowest].
    destruct (IH (if Qle_bool (energy best) (energy r) then best else r))
      as [Hb Hrest].
    destruct (Qle_bool (energy best) (energy r)) eqn:E.
    + apply Qle_bool_iff in E. split; [exact Hb|].
      intros r' [<- | Hin]; [now apply Qle_trans with (energy best) | now apply Hrest].
    + assert (Hlt : energy r < energy best).
      { apply Qnot_le_lt. intros Hle. apply Qle_bool_iff in Hle. congruence. }
      split; [apply Qle_trans with (energy r); [exact Hb | now apply Qlt_le_weak]|].
      intros r' [<- | Hin]; [exact Hb | now apply Hrest].
Qed.

(** A response of the sampler on the notebook's instance: one read, stuck in
    the state [(+1,+1,+1)] of energy [0]. *)
Lemma heuristic_search_may_be_suboptimal :
  exists response σ e rows e_min,
    consistent J_notebook response /\
    heuristic_search response = Some σ /\
    calculate_energy J_notebook σ = Ok e /\
    exhaustive_search 3 J_notebook = Ok rows /\
    minimum_energy rows = Some e_min /\
    e_min < e.
Proof.
  exists [ {| sample := [1; 1; 1]%Z; energy := 0 |} ].
  exists [1; 1; 1]%Z, 0. eexists. exists (-2).
  split; [repeat constructor|].
  repeat (split; [reflexivity|]). reflexivity.
Qed.

(** C8: from a non-empty batch the heuristic search returns the sample of a
    row of the batch whose energy no row of the batch undercuts; the sample
    is handed on as it is, and it need not be a ground state: a batch may
    miss the global minimum, and the search returns its best row all the
    same. *)
Theorem heuristic_search_minimum_observed :
  (forall response, response <> [] ->
     exists best,
       first response = Some best /\
       heuristic_search response = Some (sample best) /\
       In best response /\
       forall r, In r response -> energy best <= energy r) /\
  (exists response σ e rows e_min,
     consistent J_notebook response /\
     heuristic_search response = Some σ /\
     calculate_energy J_notebook σ = Ok e /\
     exhaustive_search 3 J_notebook = Ok rows /\
     minimum_energy rows = Some e_min /\
     e_min < e).
Proof.
  split; [|exact heuristic_search_may_be_suboptimal].
  intros [|r0 rest] Hne; [congruence|].
  exists (lowest r0 rest). unfold heuristic_search. cbn [first option_map].
  split; [reflexivity|]. split; [reflexivity|].
  destruct (lowest_le rest r0) as [H0 Hrest]. split.
  - destruct (lowest_In rest r0) as [-> | Hin]; [now left | now right].
  - intros r [<- | Hin]; [exact H0 | now apply Hrest].
Qed.

Lemma heuristic_search_minimum_observed_witness :
  exists best,
    first [ {| sample := [1; 1; 1]%Z; energy := 0 |};
            {| sample := [1; -1; -1]%Z; energy := -2 |};
            {| sample := [1; 1; -1]%Z; energy := 2 |} ] = Some best /\
    heuristic_search
      [ {| sample := [1; 1; 1]%Z; energy := 0 |};
        {| sample := [1; -1; -1]%Z; energy := -2 |};
        {| sample := [1; 1; -1]%Z; energy := 2 |} ] = Some (sample best) /\
    In best [ {| sample := [1; 1; 1]%Z; energy := 0 |};
              {| sample := [1; -1; -1]%Z; energy := -2 |};
              {| sample := [1; 1; -1]%Z; energy := 2 |} ] /\
    forall r,
      In r [ {| sample := [1; 1; 1]%Z; energy := 0 |};
             {| sample := [1; -1; -1]%Z; energy := -2 |};
             {| sample := [1; 1; -1]%Z; energy := 2 |} ] ->
      energy best <= energy r.
Proof.
  apply (proj1 heuristic_search_minimum_observed). discriminate.
Defined.

Example heuristic_search_three_reads :
  heuristic_search
    [ {| sample := [1; 1; 1]%Z; energy := 0 |};
      {| sample := [1; -1; -1]%Z; energy := -2 |};
      {| sample := [1; 1; -1]%Z; energy := 2 |} ] = Some [1; -1; -1]%Z.
Proof. reflexivity. Qed.

(** ** Evaluation over the caller's objects *)

Lemma coupling_term_st_pure i J_ij s :
  coupling_term_st i J_ij s = (coupling_term (σ_obj s) i J_ij, s).
Proof.
  unfold coupling_term_st, coupling_term, bindS, load_σ, ret.
  destruct (getitem (σ_obj s) i) as [s_i|]; [|reflexivity]. cbn [bind].
  destruct (getitem (σ_obj s) (i + 1)) as [s_j|]; reflexivity.
Qed.

Lemma load_J_suffix pre a l s :
  J_obj s = pre ++ a :: l -> load_J (length pre) s = (Ok a, s).
Proof.
  intros HJ. unfold load_J, getitem. rewrite HJ.
  rewrite nth_error_app2 by lia. now rewrite Nat.sub_diag.
Qed.

Lemma sum_terms_st_pure l :
  forall pre acc s,
    J_obj s = pre ++ l ->
    sum_terms_st acc (seq (length pre) (length l)) s
    = (sum_terms (σ_obj s) acc (enumerate_from (length pre) l), s).
Proof.
  induction l as [|a l IH]; intros pre acc s HJ; [reflexivity|].
  cbn [length seq sum_terms_st enumerate_from sum_terms]. unfold bindS at 1.
  rewrite (load_J_suffix pre a l s HJ). unfold bindS at 1.
  rewrite coupling_term_st_pure.
  destruct (coupling_term (σ_obj s) (length pre) a) as [t|]; [|reflexivity].
  cbn [bind].
  replace (S (length pre)) with (length (pre ++ [a]))
    by (rewrite length_app; simpl; lia).
  apply IH. now rewrite <- app_assoc.
Qed.

Lemma calculate_energy_st_pure s :
  calculate_energy_st s = (calculate_energy (J_obj s) (σ_obj s), s).
Proof.
  unfold calculate_energy_st, bindS, len_J, calculate_energy, enumerate.
  apply (sum_terms_st_pure (J_obj s) [] 0 s). reflexivity.
Qed.

(** C9: the evaluator is a function of the two objects it is handed and
    leaves them as they were: an evaluation returns the store unchanged, its
    value is determined by the coupling list and the configuration alone, and
    evaluating again returns the identical value. *)
Theorem calculate_energy_st_idempotent (s : store) :
  snd (calculate_energy_st s) = s /\
  fst (calculate_energy_st s) = calculate_energy (J_obj s) (σ_obj s) /\
  calculate_energy_st (snd (calculate_energy_st s)) = calculate_energy_st s.
Proof.
  rewrite calculate_energy_st_pure. cbn [fst snd].
  repeat split. apply calculate_energy_st_pure.
Qed.

(** * Further cells: properties *)

(** ** Bits of a basis-state index *)

Lemma rshift_nonneg a n : (0 <= n)%Z -> rshift a n = Returns (a / 2 ^ n)%Z.
Proof.
  intros Hn. unfold rshift.
  destruct (Z.ltb_spec n 0) as [Hlt | _]; [lia|].
  now rewrite Z.shiftr_div_pow2.
Qed.

Lemma land_1_mod a : Z.land a 1 = (a mod 2)%Z.
Proof. exact (Z.land_ones a 1 ltac:(lia)). Qed.

Lemma bits_le_length n : forall k, length (bits_le n k) = n.
Proof. induction n as [|n IH]; intros k; simpl; [reflexivity | now rewrite IH]. Qed.

Lemma bits_le_bit n : forall k, Forall is_bit (bits_le n k).
Proof.
  induction n as [|n IH]; intros k; simpl; constructor; [|apply IH].
  unfold is_bit. pose proof (Z.mod_pos_bound k 2). lia.
Qed.

Lemma bits_le_nth n :
  forall k i, (i < n)%nat ->
              nth i (bits_le n k) 0%Z = ((k / 2 ^ Z.of_nat i) mod 2)%Z.
Proof.
  induction n as [|n IH]; intros k i Hi; [lia|].
  destruct i as [|i]; simpl bits_le; cbn [nth].
  - now rewrite Z.div_1_r.
  - rewrite IH by lia. rewrite Z.div_div by lia.
    rewrite Nat2Z.inj_succ, Z.pow_succ_r by lia. reflexivity.
Qed.

Lemma from_bits_le_bits n :
  forall k, from_bits_le (bits_le n k) = (k mod 2 ^ Z.of_nat n)%Z.
Proof.
  induction n as [|n IH]; intros k.
  - simpl. now rewrite Z.mod_1_r.
  - cbn [bits_le from_bits_le fold_right]. fold (from_bits_le (bits_le n (k / 2))).
    rewrite IH, Nat2Z.inj_succ, Z.pow_succ_r by lia.
    rewrite Z.rem_mul_r by lia. reflexivity.
Qed.

Lemma from_bits_be_rev bits : from_bits_be (rev bits) = from_bits_le bits.
Proof.
  unfold from_bits_be, from_bits_le.
  induction bits as [|b bits IH]; [reflexivity|].
  cbn [rev fold_right]. rewrite fold_left_app, IH. cbn [fold_left]. lia.
Qed.

Lemma for_each_returns {A B} (f : A -> outcome B) (g : A -> B) (l : list A) :
  (forall a, In a l -> f a = Returns (g a)) ->
  for_each f l = Returns (map g l).
Proof.
  induction l as [|a l IH]; intros H; [reflexivity|].
  cbn [for_each map]. rewrite (H a) by now left.
  cbn [and_then]. rewrite IH by (intros b Hb; apply H; now right).
  reflexivity.
Qed.

Lemma in_range n i : In i (range n) <-> (0 <= i < n)%Z.
Proof.
  unfold range. rewrite in_map_iff. split.
  - intros [j [<- Hj]]. apply in_seq in Hj. lia.
  - intros Hi. exists (Z.to_nat i). split; [lia|]. apply in_seq. lia.
Qed.

Lemma nth_bit_in_range (num_nodes : nat) idx n :
  (n < Z.of_nat num_nodes)%Z ->
  nth_bit num_nodes idx n
  = Returns ((idx / 2 ^ (Z.of_nat num_nodes - n - 1)) mod 2)%Z.
Proof.
  intros Hn. unfold nth_bit. rewrite rshift_nonneg by lia.
  cbn [and_then]. now rewrite land_1_mod.
Qed.

(** X1: [nth_bit] fails exactly when the position is past the last qubit (the
    shift count is negative); below that it returns a binary digit of [idx]. *)
Theorem nth_bit_outcome (num_nodes : nat) (idx n : Z) :
  (nth_bit num_nodes idx n = Raises ExcValueError <-> (Z.of_nat num_nodes <= n)%Z) /\
  ((n < Z.of_nat num_nodes)%Z ->
   exists b, nth_bit num_nodes idx n = Returns b /\ is_bit b /\
             b = ((idx / 2 ^ (Z.of_nat num_nodes - n - 1)) mod 2)%Z).
Proof.
  split.
  - split.
    + intros H. destruct (Z.lt_ge_cases n (Z.of_nat num_nodes)) as [Hlt | Hge];
        [|exact Hge].
      rewrite nth_bit_in_range in H by exact Hlt. discriminate H.
    + intros Hge. unfold nth_bit, rshift.
      destruct (Z.ltb_spec (Z.of_nat num_nodes - n - 1) 0) as [_ | Hle];
        [reflexivity | lia].
  - intros Hlt. eexists. split; [now apply nth_bit_in_range|].
    split; [|reflexivity]. unfold is_bit.
    pose proof (Z.mod_pos_bound (idx / 2 ^ (Z.of_nat num_nodes - n - 1)) 2). lia.
Qed.

(** ** The read-out loop *)

Lemma firstn_app_exact {A} (l1 l2 : list A) :
  firstn (length l1) (l1 ++ l2) = l1.
Proof.
  rewrite <- (Nat.add_0_r (length l1)), firstn_app_2. simpl. apply app_nil_r.
Qed.

Lemma skipn_app_exact {A} (l1 l2 : list A) j :
  skipn (length l1 + j) (l1 ++ l2) = skipn j l2.
Proof.
  induction l1 as [|a l1 IH]; [reflexivity | exact IH].
Qed.

Lemma extract_loop_bits n :
  forall s w k, (s + n <= length w)%nat ->
    extract_loop (seq s n) w k
    = Returns (firstn s w ++ bits_le n k ++ skipn (s + n) w,
               (k / 2 ^ Z.of_nat n)%Z).
Proof.
  induction n as [|n IH]; intros s w k Hlen.
  - cbn [seq extract_loop bits_le app]. rewrite Nat.add_0_r, firstn_skipn.
    now rewrite Z.div_1_r.
  - cbn [seq extract_loop]. unfold store_item.
    destruct (Nat.ltb_spec s (length w)) as [Hs | Hs]; [|lia].
    cbn [and_then]. rewrite rshift_nonneg by lia. cbn [and_then].
    assert (Hpre : length (firstn s w ++ [(k mod 2)%Z]) = S s).
    { rewrite length_app, firstn_length_le by lia. simpl. lia. }
    replace (firstn s w ++ (k mod 2)%Z :: skipn (S s) w)
      with ((firstn s w ++ [(k mod 2)%Z]) ++ skipn (S s) w)
      by (now rewrite <- app_assoc).
    rewrite IH
      by (rewrite length_app, Hpre, length_skipn; lia).
    rewrite <- Hpre at 1. rewrite firstn_app_exact.
    rewrite <- Hpre at 1. rewrite skipn_app_exact, skipn_skipn.
    f_equal. f_equal.
    + rewrite <- app_assoc. cbn [bits_le app].
      replace (n + S s)%nat with (s + S n)%nat by lia.
      now rewrite Z.pow_1_r.
    + rewrite Z.pow_1_r, Z.div_div by lia.
      now rewrite Nat2Z.inj_succ, Z.pow_succ_r by lia.
Qed.

Lemma extract_weights_bits (num_nodes : nat) (k : Z) :
  extract_weights num_nodes k = Returns (bits_le num_nodes k).
Proof.
  unfold extract_weights.
  rewrite (extract_loop_bits num_nodes 0 (repeat 0%Z num_nodes) k)
    by (rewrite repeat_length; lia).
  cbn [and_then fst firstn app].
  rewrite skipn_all2 by (rewrite repeat_length; lia).
  now rewrite app_nil_r.
Qed.

(** X3: The read-out loop writes the [num_nodes] binary digits of [k], least
    significant first: for [0 <= k < 2^num_nodes] it raises nothing, every
    weight is [0] or [1], and the weights read back as [k]. *)
Theorem extract_weights_round_trip (num_nodes : nat) (k : Z) :
  (0 <= k < 2 ^ Z.of_nat num_nodes)%Z ->
  exists weights,
    extract_weights num_nodes k = Returns weights /\
    length weights = num_nodes /\
    Forall is_bit weights /\
    from_bits_le weights = k.
Proof.
  intros Hk. exists (bits_le num_nodes k).
  split; [apply extract_weights_bits|].
  split; [apply bits_le_length|].
  split; [apply bits_le_bit|].
  rewrite from_bits_le_bits. now apply Z.mod_small.
Qed.

Lemma extract_weights_round_trip_witness :
  (0 <= 5 < 2 ^ Z.of_nat 3)%Z /\
  exists weights,
    extract_weights 3 5 = Returns weights /\
    length weights = 3%nat /\
    Forall is_bit weights /\
    from_bits_le weights = 5%Z.
Proof.
  split.
  - simpl. lia.
  - apply extract_weights_round_trip. simpl. lia.
Defined.

Lemma rev_by_index {A} (l : list A) (d : A) :
  rev l = map (fun n => nth (length l - 1 - n) l d) (seq 0 (length l)).
Proof.
  set (f := fun n => nth (length l - 1 - n) l d).
  apply (nth_ext _ _ d (f 0%nat)).
  - now rewrite length_rev, length_map, length_seq.
  - intros n Hn. rewrite length_rev in Hn.
    rewrite rev_nth by exact Hn.
    rewrite (map_nth f), seq_nth by exact Hn.
    unfold f. f_equal. lia.
Qed.

Lemma nth_bits_big_endian (num_nodes : nat) (idx : Z) :
  for_each (nth_bit num_nodes idx) (range (Z.of_nat num_nodes))
  = Returns (rev (bits_le num_nodes idx)).
Proof.
  rewrite (for_each_returns _
             (fun n => nth (num_nodes - 1 - Z.to_nat n) (bits_le num_nodes idx) 0%Z)).
  - f_equal. rewrite (rev_by_index _ 0%Z), bits_le_length.
    unfold range. rewrite Nat2Z.id, map_map.
    apply map_ext. intros n. now rewrite Nat2Z.id.
  - intros n Hn. apply in_range in Hn.
    rewrite nth_bit_in_range by lia.
    rewrite bits_le_nth by lia.
    replace (Z.of_nat (num_nodes - 1 - Z.to_nat n))
      with (Z.of_nat num_nodes - n - 1)%Z by lia.
    reflexivity.
Qed.

(** X4: [nth_bit] numbers the digits from the most significant end and the
    read-out loop from the least significant end: over the positions
    [range(num_nodes)] the bits [nth_bit(k, n)] are the extracted weights in
    reverse order. *)
Theorem nth_bit_reverses_weights (num_nodes : nat) (k : Z) :
  exists weights,
    extract_weights num_nodes k = Returns weights /\
    for_each (nth_bit num_nodes k) (range (Z.of_nat num_nodes)) = Returns (rev weights).
Proof.
  exists (bits_le num_nodes k).
  split; [apply extract_weights_bits | apply nth_bits_big_endian].
Qed.

(** X2: For [0 <= idx < 2^num_nodes] the bits [nth_bit(idx, 0)], ...,
    [nth_bit(idx, num_nodes-1)] are the binary digits of [idx], most
    significant first: none raises, and they read back as [idx]. *)
Theorem nth_bit_round_trip (num_nodes : nat) (idx : Z) :
  (0 <= idx < 2 ^ Z.of_nat num_nodes)%Z ->
  exists bits,
    for_each (nth_bit num_nodes idx) (range (Z.of_nat num_nodes)) = Returns bits /\
    Forall is_bit bits /\
    from_bits_be bits = idx.
Proof.
  intros Hidx. exists (rev (bits_le num_nodes idx)).
  split; [apply nth_bits_big_endian|].
  split.
  - apply Forall_rev, bits_le_bit.
  - rewrite from_bits_be_rev, from_bits_le_bits. now apply Z.mod_small.
Qed.

Lemma nth_bit_round_trip_witness :
  (0 <= 6 < 2 ^ Z.of_nat 3)%Z /\
  exists bits,
    for_each (nth_bit 3 6) (range 3) = Returns bits /\
    Forall is_bit bits /\
    from_bits_be bits = 6%Z.
Proof.
  split.
  - simpl. lia.
  - apply nth_bit_round_trip. simpl. lia.
Defined.

(** ** The cost of a wavefunction *)

Lemma get_J_outcome J i j :
  get_J J i j = Returns (value_of (get_J J i j)) \/ get_J J i j = Raises ExcKeyError.
Proof.
  induction J as [|[[k l] v] J IH]; simpl; [now right|].
  destruct ((k =? i)%nat && (l =? j)%nat); [now left | exact IH].
Qed.

Lemma get_h_outcome h i :
  get_h h i = Returns (value_of (get_h h i)) \/ get_h h i = Raises ExcKeyError.
Proof.
  induction h as [|[k v] h IH]; simpl; [now right|].
  destruct (k =? i)%nat; [now left | exact IH].
Qed.

Lemma has_value_returns o : has_value o = true -> o = Returns (value_of o).
Proof. destruct o; [reflexivity | discriminate]. Qed.

Lemma nth_bit_site (num_nodes : nat) idx i :
  (i < num_nodes)%nat ->
  nth_bit num_nodes idx (Z.of_nat i) = Returns (bit_at num_nodes idx i).
Proof. intros Hi. apply nth_bit_in_range. lia. Qed.

Lemma bit_at_bit num_nodes idx i : is_bit (bit_at num_nodes idx i).
Proof.
  unfold is_bit, bit_at.
  pose proof (Z.mod_pos_bound
                (idx / 2 ^ (Z.of_nat num_nodes - Z.of_nat i - 1)) 2). lia.
Qed.

Lemma bit_at_zero num_nodes i : bit_at num_nodes 0 i = 0%Z.
Proof. unfold bit_at. now rewrite Zdiv_0_l. Qed.

Lemma pair_loop_value (num_nodes : nat) J idx i js :
  (i < num_nodes)%nat ->
  forall acc,
    Forall (fun j => (j < num_nodes)%nat /\ has_value (get_J J i j) = true) js ->
    exists v, pair_loop num_nodes J idx i js acc = Returns v /\
              v == acc + Qsum (map (pair_weight num_nodes J idx i) js).
Proof.
  intros Hi. induction js as [|j js IH]; intros acc HF.
  - exists acc. split; [reflexivity | simpl; ring].
  - inversion HF as [|? ? [Hj Hv] HF']; subst.
    cbn [pair_loop]. rewrite !nth_bit_site by assumption. cbn [and_then].
    cbn [map]. unfold Qsum. cbn [fold_right]. fold (Qsum (map (pair_weight num_nodes J idx i) js)).
    unfold pair_weight at 1.
    destruct (bit_at num_nodes idx i =? bit_at num_nodes idx j)%Z.
    + rewrite (has_value_returns _ Hv). cbn [and_then value_of].
      destruct (IH (acc + value_of (get_J J i j)) HF') as [v [Hr Hq]].
      exists v. split; [exact Hr|]. rewrite Hq. ring.
    + destruct (IH acc HF') as [v [Hr Hq]].
      exists v. split; [exact Hr|]. rewrite Hq. ring.
Qed.

Lemma site_loop_value (num_nodes : nat) h J idx sites :
  forall acc,
    Forall (fun i => (i < num_nodes)%nat /\ has_value (get_h h i) = true /\
                     Forall (fun j => (j < num_nodes)%nat /\
                                      has_value (get_J J i j) = true)
                       (seq (S i) (num_nodes - S i))) sites ->
    exists v, site_loop num_nodes h J idx sites acc = Returns v /\
              v == acc + Qsum (map (site_weight num_nodes h J idx) sites).
Proof.
  induction sites as [|i sites IH]; intros acc HF.
  - exists acc. split; [reflexivity | simpl; ring].
  - inversion HF as [|? ? [Hi [Hh HJ]] HF']; subst.
    cbn [site_loop]. rewrite nth_bit_site by assumption. cbn [and_then].
    cbn [map]. unfold Qsum at 1. cbn [fold_right].
    fold (Qsum (map (site_weight num_nodes h J idx) sites)).
    unfold site_weight at 1.
    destruct (bit_at num_nodes idx i =? 0)%Z.
    + cbn [and_then].
      destruct (pair_loop_value num_nodes J idx i _ Hi acc HJ) as [v1 [Hr1 Hq1]].
      rewrite Hr1. cbn [and_then].
      destruct (IH v1 HF') as [v [Hr Hq]].
      exists v. split; [exact Hr|]. rewrite Hq, Hq1. ring.
    + rewrite (has_value_returns _ Hh). cbn [and_then value_of].
      destruct (pair_loop_value num_nodes J idx i _ Hi
                  (acc + value_of (get_h h i)) HJ) as [v1 [Hr1 Hq1]].
      rewrite Hr1. cbn [and_then].
      destruct (IH v1 HF') as [v [Hr Hq]].
      exists v. split; [exact Hr|]. rewrite Hq, Hq1. ring.
Qed.

Lemma all_keys_sites num_nodes h J :
  all_keys num_nodes h J = true ->
  Forall (fun i => (i < num_nodes)%nat /\ has_value (get_h h i) = true /\
                   Forall (fun j => (j < num_nodes)%nat /\
                                    has_value (get_J J i j) = true)
                     (seq (S i) (num_nodes - S i))) (seq 0 num_nodes).
Proof.
  unfold all_keys. rewrite forallb_forall. intros H.
  apply Forall_forall. intros i Hi. specialize (H i Hi).
  apply andb_true_iff in H. destruct H as [Hh HJ].
  apply in_seq in Hi. split; [lia|]. split; [exact Hh|].
  rewrite forallb_forall in HJ.
  apply Forall_forall. intros j Hj. split; [apply in_seq in Hj; lia|].
  now apply HJ.
Qed.

Lemma ZZ_filter_entry_value num_nodes h J idx :
  all_keys num_nodes h J = true ->
  exists v, ZZ_filter_entry num_nodes h J idx = Returns v /\
            v == filter_value num_nodes h J idx.
Proof.
  intros Hk.
  destruct (site_loop_value num_nodes h J idx (seq 0 num_nodes) 0
              (all_keys_sites num_nodes h J Hk)) as [v [Hr Hq]].
  exists v. split; [exact Hr|]. rewrite Hq. unfold filter_value. ring.
Qed.

Lemma Qsum_cons a l : Qsum (a :: l) = a + Qsum l.
Proof. reflexivity. Qed.

Lemma Qsum_map_halves {A} (f g k : A -> Q) (l : list A) :
  (forall x, In x l -> 2 * f x == g x + k x) ->
  2 * Qsum (map f l) == Qsum (map g l) + Qsum (map k l).
Proof.
  induction l as [|x l IH]; intros H.
  - simpl. ring.
  - cbn [map]. rewrite !Qsum_cons.
    assert (Hx : 2 * f x == g x + k x) by (apply H; now left).
    assert (Hl : 2 * Qsum (map f l) == Qsum (map g l) + Qsum (map k l))
      by (apply IH; intros y Hy; apply H; now right).
    setoid_replace (2 * (f x + Qsum (map f l)))
      with (2 * f x + 2 * Qsum (map f l)) by ring.
    rewrite Hx, Hl. ring.
Qed.

Ltac bit_cases :=
  change (0 =? 0)%Z with true; change (1 =? 1)%Z with true;
  change (0 =? 1)%Z with false; change (1 =? 0)%Z with false;
  change (inject_Z (2 * 0 - 1)) with (-1);
  change (inject_Z (2 * 1 - 1)) with 1;
  cbv beta iota.

Lemma pair_weight_spins num_nodes J idx i j :
  2 * pair_weight num_nodes J idx i j
  == value_of (get_J J i j)
     + value_of (get_J J i j) * spin_at num_nodes idx i * spin_at num_nodes idx j.
Proof.
  unfold pair_weight, spin_at.
  destruct (bit_at_bit num_nodes idx i) as [-> | ->];
    destruct (bit_at_bit num_nodes idx j) as [-> | ->];
    bit_cases; ring.
Qed.

Lemma site_weight_spins num_nodes h J idx i :
  2 * site_weight num_nodes h J idx i
  == (value_of (get_h h i)
      + Qsum (map (fun j => value_of (get_J J i j)) (seq (S i) (num_nodes - S i))))
     + (value_of (get_h h i) * spin_at num_nodes idx i
        + Qsum (map (fun j => value_of (get_J J i j) * spin_at num_nodes idx i
                              * spin_at num_nodes idx j)
                  (seq (S i) (num_nodes - S i)))).
Proof.
  unfold site_weight.
  pose proof (Qsum_map_halves
                (pair_weight num_nodes J idx i)
                (fun j => value_of (get_J J i j))
                (fun j => value_of (get_J J i j) * spin_at num_nodes idx i
                          * spin_at num_nodes idx j)
                (seq (S i) (num_nodes - S i))
                (fun j _ => pair_weight_spins num_nodes J idx i j)) as Hpairs.
  set (P := Qsum (map (pair_weight num_nodes J idx i) (seq (S i) (num_nodes - S i)))) in *.
  assert (Hh : 2 * (if (bit_at num_nodes idx i =? 0)%Z then 0 else value_of (get_h h i))
               == value_of (get_h h i)
                  + value_of (get_h h i) * spin_at num_nodes idx i).
  { unfold spin_at.
    destruct (bit_at_bit num_nodes idx i) as [-> | ->];
      bit_cases; ring. }
  setoid_replace
    (2 * ((if (bit_at num_nodes idx i =? 0)%Z then 0 else value_of (get_h h i)) + P))
    with (2 * (if (bit_at num_nodes idx i =? 0)%Z then 0 else value_of (get_h h i))
          + 2 * P) by ring.
  rewrite Hh, Hpairs. ring.
Qed.

Lemma filter_value_spins num_nodes h J idx :
  2 * filter_value num_nodes h J idx
  == bias_total num_nodes h J
     + ising_objective num_nodes h J (spin_at num_nodes idx).
Proof.
  unfold filter_value, bias_total, ising_objective.
  apply Qsum_map_halves. intros i _. apply site_weight_spins.
Qed.

(** X5: With every key present, an entry of [ZZ_filter] is half the total of the
    biases plus half the Ising objective [Σ h_i s_i + Σ_{i<j} J_ij s_i s_j] at
    the spins [s_i = 2·nth_bit(idx, i) - 1]. *)
Theorem ZZ_filter_entry_ising (num_nodes : nat) (h : field_set)
  (J : coupling_set) (idx : Z) :
  all_keys num_nodes h J = true ->
  exists v, ZZ_filter_entry num_nodes h J idx = Returns v /\
            2 * v == bias_total num_nodes h J
                     + ising_objective num_nodes h J (spin_at num_nodes idx).
Proof.
  intros Hk.
  destruct (ZZ_filter_entry_value num_nodes h J idx Hk) as [v [Hr Hq]].
  exists v. split; [exact Hr|]. rewrite Hq. apply filter_value_spins.
Qed.

Lemma ZZ_filter_entry_ising_witness :
  all_keys 2 [(0%nat, 1); (1%nat, 2)] [(0%nat, 1%nat, 3)] = true /\
  exists v,
    ZZ_filter_entry 2 [(0%nat, 1); (1%nat, 2)] [(0%nat, 1%nat, 3)] 2 = Returns v /\
    2 * v == bias_total 2 [(0%nat, 1); (1%nat, 2)] [(0%nat, 1%nat, 3)]
             + ising_objective 2 [(0%nat, 1); (1%nat, 2)] [(0%nat, 1%nat, 3)]
                 (spin_at 2 2).
Proof.
  split.
  - reflexivity.
  - apply ZZ_filter_entry_ising. reflexivity.
Defined.

Example ZZ_filter_two_sites :
  ZZ_filter 2 [(0%nat, 1); (1%nat, 2)] [(0%nat, 1%nat, 3)] 4
  = Returns [3; 2; 1; 6].
Proof. reflexivity. Qed.

(** *** A pair missing from [J] *)

Lemma pair_loop_zero (num_nodes : nat) J i js :
  (i < num_nodes)%nat ->
  forall acc,
    Forall (fun j => (j < num_nodes)%nat) js ->
    pair_loop num_nodes J 0 i js acc = Raises ExcKeyError \/
    (exists v, pair_loop num_nodes J 0 i js acc = Returns v) /\
    Forall (fun j => has_value (get_J J i j) = true) js.
Proof.
  intros Hi. induction js as [|j js IH]; intros acc HF.
  - right. split; [now exists acc | constructor].
  - inversion HF as [|? ? Hj HF']; subst.
    cbn [pair_loop]. rewrite !nth_bit_site by assumption.
    rewrite !bit_at_zero. cbn [and_then Z.eqb].
    destruct (get_J_outcome J i j) as [Hr | Hr]; rewrite Hr; cbn [and_then];
      [|now left].
    destruct (IH (acc + value_of (get_J J i j)) HF') as [He | [Hv Hall]];
      [now left | right].
    split; [exact Hv|]. constructor; [now rewrite Hr | exact Hall].
Qed.

Lemma site_loop_zero (num_nodes : nat) h J sites :
  forall acc,
    Forall (fun i => (i < num_nodes)%nat) sites ->
    site_loop num_nodes h J 0 sites acc = Raises ExcKeyError \/
    (exists v, site_loop num_nodes h J 0 sites acc = Returns v) /\
    Forall (fun i => Forall (fun j => has_value (get_J J i j) = true)
                       (seq (S i) (num_nodes - S i))) sites.
Proof.
  induction sites as [|i sites IH]; intros acc HF.
  - right. split; [now exists acc | constructor].
  - inversion HF as [|? ? Hi HF']; subst.
    cbn [site_loop]. rewrite nth_bit_site by assumption.
    rewrite bit_at_zero. cbn [and_then Z.eqb].
    destruct (pair_loop_zero num_nodes J i (seq (S i) (num_nodes - S i)) Hi acc)
      as [He | [[v Hv] Hall]].
    + apply Forall_forall. intros j Hj. apply in_seq in Hj. lia.
    + rewrite He. now left.
    + rewrite Hv. cbn [and_then].
      destruct (IH v HF') as [He | [Hv' Hall']]; [now left | right].
      split; [exact Hv' | now constructor].
Qed.

Lemma ZZ_filter_entry_zero_missing (num_nodes : nat) h J i j :
  (i < j < num_nodes)%nat ->
  get_J J i j = Raises ExcKeyError ->
  ZZ_filter_entry num_nodes h J 0 = Raises ExcKeyError.
Proof.
  intros Hij Hmiss. unfold ZZ_filter_entry.
  destruct (site_loop_zero num_nodes h J (seq 0 num_nodes) 0)
    as [He | [_ Hall]]; [|exact He|].
  - apply Forall_forall. intros k Hk. apply in_seq in Hk. lia.
  - exfalso. rewrite Forall_forall in Hall.
    assert (Hi : In i (seq 0 num_nodes)) by (apply in_seq; lia).
    specialize (Hall i Hi). rewrite Forall_forall in Hall.
    assert (Hj : In j (seq (S i) (num_nodes - S i))) by (apply in_seq; lia).
    specialize (Hall j Hj). rewrite Hmiss in Hall. discriminate Hall.
Qed.

(** X6: [energy_from_wavefunction] subscripts [J[i, j]] for every pair of equal
    bits without looking whether the key is there: when [J] lacks a pair
    [i < j] of sites, the call fails with a [KeyError] on every non-empty
    wavefunction (at [idx = 0] all bits are equal). *)
Theorem energy_from_wavefunction_key_error (num_nodes : nat) (h : field_set)
  (J : coupling_set) (wf : list amplitude) (i j : nat) :
  (i < j < num_nodes)%nat ->
  get_J J i j = Raises ExcKeyError ->
  wf <> [] ->
  energy_from_wavefunction num_nodes h J wf = Raises ExcKeyError.
Proof.
  intros Hij Hmiss Hwf. unfold energy_from_wavefunction, ZZ_filter, range.
  destruct wf as [|z wf]; [congruence|].
  rewrite Nat2Z.id. cbn [length seq map for_each].
  change (Z.of_nat 0) with 0%Z.
  rewrite (ZZ_filter_entry_zero_missing num_nodes h J i j Hij Hmiss).
  reflexivity.
Qed.

Lemma energy_from_wavefunction_key_error_witness :
  (0 < 1 < 2)%nat /\
  get_J [] 0 1 = Raises ExcKeyError /\
  [(1, 0)] <> ([] : list amplitude) /\
  energy_from_wavefunction 2 [(0%nat, 1); (1%nat, 2)] [] [(1, 0)]
  = Raises ExcKeyError.
Proof.
  split; [lia|]. split; [reflexivity|]. split; [discriminate|].
  apply (energy_from_wavefunction_key_error 2 _ [] [(1, 0)] 0 1).
  - lia.
  - reflexivity.
  - discriminate.
Defined.

(** *** Basis states *)

Lemma ZZ_filter_values num_nodes h J n :
  all_keys num_nodes h J = true ->
  ZZ_filter num_nodes h J n
  = Returns (map (fun idx => value_of (ZZ_filter_entry num_nodes h J (Z.of_nat idx)))
               (seq 0 n)).
Proof.
  intros Hk. unfold ZZ_filter, range. rewrite Nat2Z.id.
  rewrite (for_each_returns _
             (fun idx => value_of (ZZ_filter_entry num_nodes h J idx))).
  - now rewrite map_map.
  - intros idx _.
    destruct (ZZ_filter_entry_value num_nodes h J idx Hk) as [v [Hr _]].
    now rewrite Hr.
Qed.

Lemma basis_state_sum (g : nat -> Q) (k : nat) :
  forall n s,
    Qsum (map (fun zf => abs2 (fst zf) * snd zf)
            (combine (map (fun idx => if (idx =? k)%nat then (1, 0) else (0, 0))
                        (seq s n))
                     (map g (seq s n))))
    == if ((s <=? k) && (k <? s + n))%nat then g k else 0.
Proof.
  induction n as [|n IH]; intros s.
  - cbn [seq map combine]. change (Qsum []) with 0.
    destruct (Nat.leb_spec s k), (Nat.ltb_spec k (s + 0)); cbn [andb];
      try lia; reflexivity.
  - cbn [seq map combine]. rewrite Qsum_cons, IH. cbn [fst snd].
    destruct (Nat.eqb_spec s k) as [-> | Hne].
    + rewrite Nat.leb_refl.
      destruct (Nat.leb_spec (S k) k); [lia|].
      destruct (Nat.ltb_spec k (k + S n)); [|lia].
      cbn [andb]. unfold abs2. cbn [fst snd]. ring.
    + unfold abs2. cbn [fst snd].
      destruct (Nat.leb_spec s k), (Nat.leb_spec (S s) k); try lia;
        destruct (Nat.ltb_spec k (s + S n)), (Nat.ltb_spec k (S s + n));
        try lia; cbn [andb]; ring.
Qed.

(** X7: The cost of a computational basis state: with every key present,
    [energy_from_wavefunction] on the wavefunction that is [1] at position
    [k] and [0] elsewhere returns [e] with
    [-2·e = Σ_i h_i + Σ_{i<j} J_ij + (Σ_i h_i s_i + Σ_{i<j} J_ij s_i s_j)],
    where [s_i = 2·nth_bit(k, i) - 1]. *)
Theorem energy_of_basis_state (num_nodes : nat) (h : field_set)
  (J : coupling_set) (n k : nat) :
  all_keys num_nodes h J = true ->
  (k < n)%nat ->
  exists e,
    energy_from_wavefunction num_nodes h J (basis_state n k) = Returns e /\
    - (2 * e) == bias_total num_nodes h J
                 + ising_objective num_nodes h J (spin_at num_nodes (Z.of_nat k)).
Proof.
  intros Hk Hlt. unfold energy_from_wavefunction, basis_state.
  rewrite length_map, length_seq, (ZZ_filter_values num_nodes h J n Hk).
  cbn [and_then]. eexists. split; [reflexivity|].
  rewrite (basis_state_sum
             (fun idx => value_of (ZZ_filter_entry num_nodes h J (Z.of_nat idx)))
             k n 0).
  destruct (Nat.leb_spec 0 k); [|lia].
  destruct (Nat.ltb_spec k (0 + n)); [|lia]. cbn [andb].
  destruct (ZZ_filter_entry_ising num_nodes h J (Z.of_nat k) Hk) as [v [Hr Hq]].
  rewrite Hr. cbn [value_of]. rewrite <- Hq. ring.
Qed.

Lemma energy_of_basis_state_witness :
  all_keys 2 [(0%nat, 1); (1%nat, 2)] [(0%nat, 1%nat, 3)] = true /\
  (2 < 4)%nat /\
  exists e,
    energy_from_wavefunction 2 [(0%nat, 1); (1%nat, 2)] [(0%nat, 1%nat, 3)]
      (basis_state 4 2) = Returns e /\
    - (2 * e) == bias_total 2 [(0%nat, 1); (1%nat, 2)] [(0%nat, 1%nat, 3)]
                 + ising_objective 2 [(0%nat, 1); (1%nat, 2)] [(0%nat, 1%nat, 3)]
                     (spin_at 2 (Z.of_nat 2)).
Proof.
  split; [reflexivity|]. split; [lia|].
  apply energy_of_basis_state; [reflexivity | lia].
Defined.

(** ** The vote of the ensemble *)

Lemma Qsum_scale (w : Q) (l : list Q) : Qsum (map (Qmult w) l) == w * Qsum l.
Proof.
  induction l as [|a l IH]; [simpl; ring|].
  cbn [map]. rewrite !Qsum_cons, IH. ring.
Qed.

Lemma nth_scale (w : Q) (l : list Q) j :
  nth j (map (Qmult w) l) 0 == w * nth j l 0.
Proof.
  revert j. induction l as [|a l IH]; intros [|j]; cbn [map nth];
    try ring; try reflexivity. apply IH.
Qed.

Lemma nth_add (y y0 : list Q) :
  length y0 = length y ->
  forall j, nth j (map (fun p => fst p + snd p) (combine y y0)) 0
            == nth j y 0 + nth j y0 0.
Proof.
  revert y0. induction y as [|a y IH]; intros [|b y0] Hlen j;
    try discriminate Hlen.
  - destruct j; simpl; ring.
  - destruct j as [|j]; cbn [combine map nth fst snd]; [reflexivity|].
    apply IH. now inversion Hlen.
Qed.

Lemma add_in_place_same_shape (y y0 : list Q) :
  length y0 = length y ->
  add_in_place y y0 = Returns (map (fun p => fst p + snd p) (combine y y0)).
Proof.
  intros Hlen. unfold add_in_place. now rewrite Hlen, Nat.eqb_refl.
Qed.

Lemma subscript_in_range {A} (l : list A) i d :
  (i < length l)%nat -> subscript l i = Returns (nth i l d).
Proof.
  intros Hi. unfold subscript. now rewrite (nth_error_nth' l d Hi).
Qed.

Lemma subscript_out_of_range {A} (l : list A) i :
  (length l <= i)%nat -> subscript l i = Raises ExcIndexError.
Proof.
  intros Hi. unfold subscript. apply nth_error_None in Hi. now rewrite Hi.
Qed.

Lemma predict_loop_value {X} (weights : list Q) (data : list X) items :
  forall y T,
    length y = length data ->
    Forall (fun it => length (snd it data) = length data /\
                      (fst it < length weights)%nat) items ->
    exists y' T',
      predict_loop items weights data y T = Returns (y', T') /\
      length y' = length data /\
      (forall j, nth j y' 0 == nth j y 0 + vote items weights data j) /\
      T' == T + total items weights data.
Proof.
  induction items as [|[i h] items IH]; intros y T Hy HF.
  - exists y, T. split; [reflexivity|]. split; [exact Hy|].
    split; [intros j|]; unfold vote, total; simpl; ring.
  - inversion HF as [|? ? [Hshape Hi] HF']; subst. cbn [fst snd] in *.
    cbn [predict_loop]. rewrite (subscript_in_range weights i 0 Hi).
    cbn [and_then].
    rewrite add_in_place_same_shape by (rewrite length_map; congruence).
    cbn [and_then].
    set (w := nth i weights 0) in *.
    set (y1 := map (fun p => fst p + snd p) (combine y (map (Qmult w) (h data)))).
    assert (Hy1 : length y1 = length data).
    { unfold y1. rewrite length_map, length_combine, length_map, Hy, Hshape.
      apply Nat.min_id. }
    destruct (IH y1 (T + Qsum (map (Qmult w) (h data))) Hy1 HF')
      as [y' [T' [Hr [Hlen [Hvote Htot]]]]].
    exists y', T'. split; [exact Hr|]. split; [exact Hlen|]. split.
    + intros j. rewrite Hvote. unfold y1.
      rewrite nth_add by (rewrite length_map; congruence).
      rewrite nth_scale. unfold vote. cbn [map fst snd]. rewrite Qsum_cons.
      fold w. ring.
    + rewrite Htot, Qsum_scale. unfold total. cbn [map fst snd].
      rewrite Qsum_cons. fold w. ring.
Qed.

Lemma enumerate_from_shaped {X} (models : list (list X -> list Q))
  (data : list X) (weights : list Q) :
  well_shaped models data ->
  forall s, (s + length models <= length weights)%nat ->
    Forall (fun it => length (snd it data) = length data /\
                      (fst it < length weights)%nat)
      (enumerate_from s models).
Proof.
  induction 1 as [|h models Hh HF IH]; intros s Hs; [constructor|].
  cbn [enumerate_from]. simpl in Hs. constructor.
  - split; [exact Hh | simpl; lia].
  - apply IH. lia.
Qed.



Lemma example_models_shaped : well_shaped example_models example_data.
Proof. repeat constructor. Defined.


Example predict_two_models :
  predict example_models [1; 1] example_data = Returns [1; -1].
Proof. reflexivity. Qed.

Lemma predict_loop_index_error {X} (weights : list Q) (data : list X) models :
  well_shaped models data ->
  forall s y T,
    length y = length data ->
    (s <= length weights < s + length models)%nat ->
    predict_loop (enumerate_from s models) weights data y T = Raises ExcIndexError.
Proof.
  induction 1 as [|h models Hh HF IH]; intros s y T Hy Hs; [simpl in Hs; lia|].
  cbn [enumerate_from predict_loop].
  destruct (Nat.lt_ge_cases s (length weights)) as [Hlt | Hge].
  - rewrite (subscript_in_range weights s 0 Hlt). cbn [and_then].
    rewrite add_in_place_same_shape by (rewrite length_map; congruence).
    cbn [and_then]. apply IH.
    + rewrite length_map, length_combine, length_map, Hy, Hh. apply Nat.min_id.
    + simpl in Hs. lia.
  - now rewrite subscript_out_of_range.
Qed.

(** X9: The failures of [predict]: without any model the threshold is [0 / 0] on
    integers, a [ZeroDivisionError]; with fewer weights than models (each
    answering with one prediction per data point) the subscript [weights[i]]
    runs out of range, an [IndexError]. *)
Theorem predict_failures {X} (models : list (list X -> list Q))
  (weights : list Q) (data : list X) :
  (models = [] -> predict models weights data = Raises ExcZeroDivisionError) /\
  (well_shaped models data /\ (length weights < length models)%nat ->
   predict models weights data = Raises ExcIndexError).
Proof.
  split.
  - intros ->. reflexivity.
  - intros [Hshape Hlen]. unfold predict, enumerate.
    rewrite (predict_loop_index_error weights data models Hshape 0%nat)
      by (rewrite ?repeat_length; lia).
    reflexivity.
Qed.

Lemma sign_pos x : 0 < x -> sign x = 1.
Proof.
  unfold sign, Qlt. simpl. intros H.
  destruct (Qnum x); [lia | reflexivity | lia].
Qed.

Lemma sign_neg x : x < 0 -> sign x = -1.
Proof.
  unfold sign, Qlt. simpl. intros H.
  destruct (Qnum x); [lia | lia | reflexivity].
Qed.

(** *** Weights that select one model *)

Lemma one_hot_nth n k i :
  (k < n)%nat -> nth i (one_hot n k) 0 = if (i =? k)%nat then 1 else 0.
Proof.
  intros Hk. unfold one_hot.
  destruct (Nat.lt_ge_cases i n) as [Hi | Hi].
  - rewrite (nth_indep _ 0 ((fun i => if (i =? k)%nat then 1 else 0) 0%nat))
      by (now rewrite length_map, length_seq).
    rewrite (map_nth (fun i => if (i =? k)%nat then 1 else 0)).
    now rewrite seq_nth.
  - rewrite nth_overflow by (now rewrite length_map, length_seq).
    destruct (Nat.eqb_spec i k); [lia | reflexivity].
Qed.

Lemma one_hot_select {X} (f : (list X -> list Q) -> Q) (w : nat -> Q) (k : nat) :
  (forall i, w i = if (i =? k)%nat then 1 else 0) ->
  forall models s,
    Qsum (map (fun it => w (fst it) * f (snd it)) (enumerate_from s models))
    == match (if (s <=? k)%nat then nth_error models (k - s) else None) with
       | Some h => f h
       | None => 0
       end.
Proof.
  intros Hw. induction models as [|h models IH]; intros s.
  - cbn [enumerate_from map]. change (Qsum []) with 0.
    destruct (s <=? k)%nat; [|reflexivity].
    destruct (k - s)%nat; reflexivity.
  - cbn [enumerate_from map fst snd]. rewrite Qsum_cons, IH, Hw.
    destruct (Nat.eqb_spec s k) as [-> | Hne].
    + rewrite Nat.leb_refl, Nat.sub_diag. cbn [nth_error].
      destruct (Nat.leb_spec (S k) k); [lia|]. ring.
    + destruct (Nat.leb_spec s k) as [Hle | Hgt].
      * destruct (Nat.leb_spec (S s) k); [|lia].
        replace (k - s)%nat with (S (k - S s)) by lia. cbn [nth_error].
        destruct (nth_error models (k - S s)); ring.
      * destruct (Nat.leb_spec (S s) k); [lia|]. ring.
Qed.

Lemma Forall2_nth_Qeq (l l' : list Q) :
  length l = length l' ->
  (forall j, (j < length l)%nat -> nth j l 0 == nth j l' 0) ->
  Forall2 Qeq l l'.
Proof.
  revert l'. induction l as [|a l IH]; intros [|b l'] Hlen H;
    try discriminate Hlen; constructor.
  - apply (H 0%nat). simpl. lia.
  - apply IH; [now inversion Hlen|].
    intros j Hj. apply (H (S j)). simpl. lia.
Qed.

Lemma labels_sum_bound (l : list Q) :
  Forall is_label l ->
  - inject_Z (Z.of_nat (length l)) <= Qsum l /\
  Qsum l <= inject_Z (Z.of_nat (length l)).
Proof.
  induction 1 as [|a l Ha HF [IHlo IHhi]]; [split; discriminate|].
  cbn [length]. rewrite Qsum_cons, Nat2Z.inj_succ, <- Z.add_1_r, inject_Z_plus.
  change (inject_Z 1) with 1.
  destruct Ha as [Ha | Ha]; rewrite Ha; split; lra.
Qed.

Lemma label_nth (l : list Q) j :
  Forall is_label l -> (j < length l)%nat -> is_label (nth j l 0).
Proof.
  intros HF Hj. rewrite Forall_forall in HF. apply HF. now apply nth_In.
Qed.

(** X11: With at least two models, weights that are [1] for the model at position
    [k] and [0] for all others make [predict] return that model's class
    labels [+1]/[-1], data point by data point. *)
Theorem predict_one_hot {X} (models : list (list X -> list Q)) (data : list X)
  (k : nat) (h_k : list X -> list Q) :
  well_shaped models data ->
  (2 <= length models)%nat ->
  nth_error models k = Some h_k ->
  Forall is_label (h_k data) ->
  exists y,
    predict models (one_hot (length models) k) data = Returns y /\
    Forall2 Qeq y (h_k data).
Proof.
  intros Hshape HK Hk Hlab.
  assert (Hklt : (k < length models)%nat)
    by (apply nth_error_Some; congruence).
  assert (Hhk : length (h_k data) = length data).
  { pose proof Hshape as Hall. unfold well_shaped in Hall.
    rewrite Forall_forall in Hall.
    apply Hall. now apply nth_error_In with k. }
  assert (Hw : (0 + length models <= length (one_hot (length models) k))%nat)
    by (unfold one_hot; rewrite length_map, length_seq; lia).
  unfold predict.
  destruct (predict_loop_value (one_hot (length models) k) data
              (enumerate models) (repeat 0 (length data)) 0
              (repeat_length 0 (length data))
              (enumerate_from_shaped models data _ Hshape 0%nat Hw))
    as [y' [T' [Hr [Hy' [Hvote Htot]]]]].
  rewrite Hr. cbn [and_then fst snd].
  destruct (Nat.eqb_spec (length models) 0) as [H0 | _]; [lia|].
  eexists. split; [reflexivity|].
  assert (Hsel : forall f : (list X -> list Q) -> Q,
             Qsum (map (fun it => nth (fst it) (one_hot (length models) k) 0
                                  * f (snd it)) (enumerate models)) == f h_k).
  { intros f.
    rewrite (one_hot_select f (fun i => nth i (one_hot (length models) k) 0) k
               (fun i => one_hot_nth (length models) k i Hklt) models 0%nat).
    cbn [Nat.leb]. now rewrite Nat.sub_0_r, Hk. }
  assert (HT : T' == Qsum (h_k data)).
  { rewrite Htot. unfold total.
    rewrite (Hsel (fun h => Qsum (h data))). ring. }
  apply Forall2_nth_Qeq; [rewrite length_map; congruence|].
  intros j Hj. rewrite length_map, Hy' in Hj.
  set (d := inject_Z (Z.of_nat (length data * length models))).
  rewrite (nth_indep _ 0 ((fun v => sign (v - T' / d)) 0))
    by (rewrite length_map; lia).
  rewrite (map_nth (fun v => sign (v - T' / d))).
  assert (Hyj : nth j y' 0 == nth j (h_k data) 0).
  { rewrite Hvote. unfold vote.
    rewrite (Hsel (fun h => nth j (h data) 0)).
    rewrite nth_repeat. ring. }
  destruct (labels_sum_bound (h_k data) Hlab) as [Hlo Hhi].
  rewrite Hhk, <- HT in Hlo, Hhi.
  set (n := inject_Z (Z.of_nat (length data))) in *.
  assert (Hn : 1 <= n)
    by (unfold n; change 1 with (inject_Z 1); rewrite <- Zle_Qle; lia).
  assert (Hd : n + n <= d).
  { unfold n, d. rewrite <- inject_Z_plus, <- Zle_Qle, Nat2Z.inj_mul. nia. }
  assert (Hdpos : 0 < d) by lra.
  assert (Hthr_hi : T' / d < 1) by (apply Qlt_shift_div_r; lra).
  assert (Hthr_lo : -1 < T' / d) by (apply Qlt_shift_div_l; lra).
  destruct (label_nth (h_k data) j Hlab ltac:(lia)) as [Hp | Hp].
  - rewrite Hp. rewrite sign_pos; [reflexivity|]. rewrite Hyj, Hp. lra.
  - rewrite Hp. rewrite sign_neg; [reflexivity|]. rewrite Hyj, Hp. lra.
Qed.

Lemma example_labels : Forall is_label [1; -1].
Proof.
  constructor; [left; reflexivity|].
  constructor; [right; reflexivity | constructor].
Defined.

Lemma predict_one_hot_witness :
  well_shaped example_models example_data /\
  (2 <= length example_models)%nat /\
  nth_error example_models 0 = Some (fun _ => [1; -1]) /\
  Forall is_label [1; -1] /\
  exists y,
    predict example_models (one_hot (length example_models) 0) example_data
    = Returns y /\
    Forall2 Qeq y [1; -1].
Proof.
  split; [exact example_models_shaped|]. split; [simpl; lia|].
  split; [reflexivity|]. split; [exact example_labels|].
  apply (predict_one_hot example_models example_data 0 (fun _ => [1; -1])).
  - exact example_models_shaped.
  - simpl. lia.
  - reflexivity.
  - exact example_labels.
Defined.


(** ** The energy expectation of a quantum state *)

Example calculate_energy_expectation_notebook :
  exists e, calculate_energy_expectation ψ_notebook H_notebook = Returns e /\
            e == -2.
Proof. eexists. split; [reflexivity|]. vm_compute. reflexivity. Qed.


(** X12: [calculate_energy_expectation] returns a number exactly for a column
    vector [state] with [n] rows and an [n × n] array [hamiltonian]; every
    other pair of shapes ends in a [ValueError] (of a product or of
    [.item()]). *)
Theorem calculate_energy_expectation_shapes (state hamiltonian : ndarray) :
  ((exists e, calculate_energy_expectation state hamiltonian = Returns e)
   <-> shapes_fit state hamiltonian) /\
  (~ shapes_fit state hamiltonian ->
   calculate_energy_expectation state hamiltonian = Raises ExcValueError).
Proof.
  unfold shapes_fit, calculate_energy_expectation, expectation_scalar, matmul, item.
  cbn [conj transpose rows cols].
  destruct (Nat.eqb_spec (rows state) (rows hamiltonian)) as [H1 | H1];
    cbn [and_then rows cols].
  - destruct (Nat.eqb_spec (cols hamiltonian) (rows state)) as [H2 | H2];
      cbn [and_then rows cols].
    + destruct (Nat.eqb_spec (cols state) 1) as [H3 | H3];
        cbn [andb and_then].
      * split; [split; [intros _; auto | intros _; eexists; reflexivity]|].
        intros Hn. exfalso. apply Hn. auto.
      * split; [split; [intros [e He]; discriminate He | intros [_ [_ H]]; contradiction]|].
        reflexivity.
    + split; [split; [intros [e He]; discriminate He | intros [_ [H _]]; contradiction]|].
      reflexivity.
  - split; [split; [intros [e He]; discriminate He | intros [H _]; congruence]|].
    reflexivity.
Qed.

(** *** The scalar as a double sum *)

Lemma Csum_fst l : fst (Csum l) = Qsum (map fst l).
Proof.
  induction l as [|a l IH]; [reflexivity|].
  cbn [Csum fold_right Cadd fst map]. fold (Csum l). now rewrite IH.
Qed.

Lemma Csum_snd l : snd (Csum l) = Qsum (map snd l).
Proof.
  induction l as [|a l IH]; [reflexivity|].
  cbn [Csum fold_right Cadd snd map]. fold (Csum l). now rewrite IH.
Qed.

Lemma Qsum_ext {A} (f g : A -> Q) (l : list A) :
  (forall x, In x l -> f x == g x) -> Qsum (map f l) == Qsum (map g l).
Proof.
  induction l as [|x l IH]; intros H; [reflexivity|].
  cbn [map]. rewrite !Qsum_cons, (H x) by now left.
  rewrite IH by (intros y Hy; apply H; now right). reflexivity.
Qed.

Lemma Qsum_zero {A} (l : list A) : Qsum (map (fun _ => 0) l) == 0.
Proof.
  induction l as [|x l IH]; [reflexivity|].
  cbn [map]. rewrite Qsum_cons, IH. ring.
Qed.

Lemma Cmul_Csum_fst (l : list amplitude) (b : amplitude) :
  fst (Cmul (Csum l) b) == Qsum (map (fun a => fst (Cmul a b)) l).
Proof.
  induction l as [|a l IH]; [simpl; ring|].
  cbn [map]. rewrite Qsum_cons, <- IH.
  cbn [Csum fold_right]. fold (Csum l). unfold Cmul, Cadd. cbn [fst snd]. ring.
Qed.

Lemma Cmul_Csum_snd (l : list amplitude) (b : amplitude) :
  snd (Cmul (Csum l) b) == Qsum (map (fun a => snd (Cmul a b)) l).
Proof.
  induction l as [|a l IH]; [simpl; ring|].
  cbn [map]. rewrite Qsum_cons, <- IH.
  cbn [Csum fold_right]. fold (Csum l). unfold Cmul, Cadd. cbn [fst snd]. ring.
Qed.

Lemma expectation_scalar_value (state hamiltonian : ndarray) :
  shapes_fit state hamiltonian ->
  exists z,
    expectation_scalar state hamiltonian = Returns z /\
    fst z == Qsum (map (fun j =>
                          Qsum (map (fun i => fst (sandwich state hamiltonian i j))
                                  (seq 0 (rows state))))
                     (seq 0 (rows state))) /\
    snd z == Qsum (map (fun j =>
                          Qsum (map (fun i => snd (sandwich state hamiltonian i j))
                                  (seq 0 (rows state))))
                     (seq 0 (rows state))).
Proof.
  intros [H1 [H2 H3]].
  unfold expectation_scalar, matmul, item. cbn [conj transpose rows cols].
  rewrite <- H1, Nat.eqb_refl. cbn [and_then rows cols].
  rewrite H2, H1, Nat.eqb_refl. cbn [and_then rows cols].
  rewrite H3. cbn [Nat.eqb andb entry]. rewrite <- H1.
  eexists. split; [reflexivity|]. split.
  - rewrite Csum_fst, map_map. apply Qsum_ext. intros j _.
    rewrite Cmul_Csum_fst, map_map. reflexivity.
  - rewrite Csum_snd, map_map. apply Qsum_ext. intros j _.
    rewrite Cmul_Csum_snd, map_map. reflexivity.
Qed.

(** *** Basis states *)

Lemma Qsum_single (g : nat -> Q) (k : nat) (l : list nat) :
  NoDup l -> In k l ->
  (forall i, In i l -> i <> k -> g i == 0) ->
  Qsum (map g l) == g k.
Proof.
  induction 1 as [|a l Ha Hnd IH]; intros Hin Hz; [contradiction|].
  cbn [map]. rewrite Qsum_cons.
  destruct Hin as [-> | Hin].
  - rewrite (Qsum_ext g (fun _ => 0)), Qsum_zero; [ring|].
    intros i Hi. apply Hz; [now right|]. intros ->. contradiction.
  - rewrite IH; [|exact Hin | intros i Hi; apply Hz; now right].
    rewrite (Hz a); [ring | now left | intros ->; contradiction].
Qed.

Lemma sandwich_basis (hamiltonian : ndarray) n k i j :
  fst (sandwich (basis_column n k) hamiltonian i j)
  == if ((i =? k) && (j =? k))%nat then fst (entry hamiltonian i j) else 0.
Proof.
  unfold sandwich, Cmul, Cconj. cbn [basis_column entry].
  destruct (entry hamiltonian i j) as [p q].
  destruct (i =? k)%nat, (j =? k)%nat; cbn [fst snd andb]; ring.
Qed.

(** X14: On the column vector of the basis state [k] the expectation is the real
    part of the diagonal entry [hamiltonian[k][k]]. *)
Theorem expectation_of_basis_state (hamiltonian : ndarray) (n k : nat) :
  rows hamiltonian = n ->
  cols hamiltonian = n ->
  (k < n)%nat ->
  exists e,
    calculate_energy_expectation (basis_column n k) hamiltonian = Returns e /\
    e == fst (entry hamiltonian k k).
Proof.
  intros Hr Hc Hk.
  assert (Hfit : shapes_fit (basis_column n k) hamiltonian)
    by (repeat split; assumption).
  destruct (expectation_scalar_value _ _ Hfit) as [z [Hz [Hre _]]].
  exists (fst z). split.
  - unfold calculate_energy_expectation. now rewrite Hz.
  - rewrite Hre. cbn [basis_column rows].
    assert (Hin : In k (seq 0 n)) by (apply in_seq; lia).
    rewrite (Qsum_single _ k (seq 0 n) (seq_NoDup n 0) Hin).
    + rewrite (Qsum_single _ k (seq 0 n) (seq_NoDup n 0) Hin).
      * rewrite sandwich_basis, Nat.eqb_refl. reflexivity.
      * intros i _ Hne. rewrite sandwich_basis.
        destruct (Nat.eqb_spec i k); [contradiction | reflexivity].
    + intros j _ Hne. rewrite (Qsum_ext _ (fun _ => 0)), Qsum_zero; [reflexivity|].
      intros i _. rewrite sandwich_basis.
      destruct (Nat.eqb_spec j k); [contradiction|].
      now rewrite andb_false_r.
Qed.

Lemma expectation_of_basis_state_witness :
  rows H_notebook = 4%nat /\
  cols H_notebook = 4%nat /\
  (0 < 4)%nat /\
  exists e,
    calculate_energy_expectation (basis_column 4 0) H_notebook = Returns e /\
    e == fst (entry H_notebook 0%nat 0%nat).
Proof.
  split; [reflexivity|]. split; [reflexivity|]. split; [lia|].
  apply expectation_of_basis_state; [reflexivity | reflexivity | lia].
Defined.


(** ** The split into training and test indices *)

Lemma NoDup_app_disjoint {A} (l l' : list A) :
  NoDup (l ++ l') -> forall x, In x l -> ~ In x l'.
Proof.
  induction l as [|a l IH]; intros Hnd x Hin; [contradiction|].
  inversion Hnd as [|? ? Ha Hnd']; subst.
  destruct Hin as [-> | Hin].
  - intros Hx. apply Ha. apply in_or_app. now right.
  - now apply IH.
Qed.

(** X15: The split loses and repeats nothing: the training indices followed by
    the test indices are the shuffled indices again; the training part holds
    two thirds of them, rounded down; and when the indices are pairwise
    different none is used both for training and for testing. *)
Theorem train_test_split {A} (idx : list A) :
  idx_train idx ++ idx_test idx = idx /\
  (3 * length (idx_train idx) <= 2 * length idx < 3 * length (idx_train idx) + 3)%nat /\
  (length (idx_train idx) + length (idx_test idx) = length idx)%nat /\
  (NoDup idx -> forall x, In x (idx_train idx) -> ~ In x (idx_test idx)).
Proof.
  unfold idx_train, idx_test, split_point.
  pose proof (Nat.div_mod_eq (2 * length idx) 3) as Hdiv.
  pose proof (Nat.mod_upper_bound (2 * length idx) 3 ltac:(lia)) as Hmod.
  split; [apply firstn_skipn|].
  split; [rewrite firstn_length_le by lia; lia|].
  split; [rewrite firstn_length_le, length_skipn by lia; lia|].
  intros Hnd. apply NoDup_app_disjoint. now rewrite firstn_skipn.
Qed.

(** ** The longest chain of an embedding *)

Lemma fold_longer {K V} (g : list (K * list V)) :
  forall m,
    let r := fold_left longer g m in
    (m <= r)%nat /\
    (forall item, In item g -> (length (snd item) <= r)%nat) /\
    (r = m \/ exists item, In item g /\ length (snd item) = r).
Proof.
  induction g as [|it g IH]; intros m; cbn [fold_left].
  - split; [lia|]. split; [intros item []|now left].
  - destruct (IH (longer m it)) as [Hge [Hall Hex]].
    assert (Hm : (m <= longer m it)%nat /\ (length (snd it) <= longer m it)%nat /\
                 (longer m it = m \/ longer m it = length (snd it))).
    { unfold longer. destruct (Nat.ltb_spec m (length (snd it))); lia. }
    destruct Hm as [Hm1 [Hm2 Hm3]].
    split; [lia|]. split.
    + intros item [<- | Hin]; [lia | now apply Hall].
    + destruct Hex as [Heq | [item [Hin Hlen]]].
      * destruct Hm3 as [Hm3 | Hm3]; [left; congruence|].
        right. exists it. split; [now left | congruence].
      * right. exists item. split; [now right | exact Hlen].
Qed.

(** X16: The loop ends with the length of a longest chain: no chain of the
    embedding is longer than [max_chain_length], some chain has exactly that
    length unless the embedding is empty, and for the empty embedding the
    result is [0]. *)
Theorem max_chain_length_is_maximum {K V} (embedded_graph : list (K * list V)) :
  (forall item, In item embedded_graph ->
                (length (snd item) <= max_chain_length embedded_graph)%nat) /\
  (embedded_graph <> [] ->
   exists item, In item embedded_graph /\
                length (snd item) = max_chain_length embedded_graph) /\
  (embedded_graph = [] -> max_chain_length embedded_graph = 0%nat).
Proof.
  unfold max_chain_length.
  destruct (fold_longer embedded_graph 0%nat) as [_ [Hall Hex]].
  split; [exact Hall|]. split; [|now intros ->].
  intros Hne. destruct Hex as [Heq | Hex]; [|exact Hex].
  destruct embedded_graph as [|it g]; [congruence|].
  exists it. split; [now left|].
  specialize (Hall it (or_introl eq_refl)). lia.
Qed.


(** ** The energy range of a chain *)










Example align_notebook : align 1 J_notebook = [1; -1; -1]%Z.
Proof. reflexivity. Qed.
